(** * Range proofs of the BLSCT arithmetic layer

    A shallow embedding of [src/blsct/arith/range_proof/range_proof.cpp]:
    the prover [Prove] with its inner-product argument, the shape
    validation of the batch verifier [Verify], the message trimming
    [GetTrimmedVch] and the recovery routine [RecoverTxIns].

    The scalar field, the curve group, the hash transcript, the generator
    factory and the vector arithmetic of the [Scalars]/[G1Points] classes
    are not defined in this source file; they are the fields of the class
    [Arith] below, and the theorems of the section [RangeProofFacts] hold
    for any implementation of them.  They are taken as total functions: the
    only failures of the embedding are the [throw] statements written in
    [range_proof.cpp] itself.  The containers behind [Scalars] and
    [G1Points] are visible in the source ([m_vec], [Add], [Size], [Empty],
    indexing) and are lists.  The last part of the file runs the embedding
    on one concrete implementation of the class. *)

From Stdlib Require Import List ZArith NArith Arith Lia Bool.
From Stdlib.Strings Require Import Byte.
From Bignums Require Import BigZ.
Import ListNotations.

Set Implicit Arguments.

(** ** Data model *)

(** The constants of [Config] used by the file. *)
Record Config : Type := mkConfig {
  m_input_value_bits : nat;
  m_max_input_values : nat;
  m_max_message_size : nat;
  m_max_prove_tries : nat
}.

(** [Generators]: the source reads [gens.G.get()], [gens.H],
    [gens.Gi.get()] and [gens.Hi.get()]. *)
Record Generators (P : Type) : Type := mkGenerators {
  g_G : P;
  g_H : P;
  g_Gi : list P;
  g_Hi : list P
}.

(** [Proof]: one field for every member the source names.  Both [t_hat]
    (assigned by [Prove]) and [t] (written to the transcript by [Prove], read
    by [VerifyLoop2]) occur in the source. *)
Record Proof (Sc P : Type) : Type := mkProof {
  p_Vs : list P;
  p_Ls : list P;
  p_Rs : list P;
  p_A : P;
  p_S : P;
  p_T1 : P;
  p_T2 : P;
  p_tau_x : Sc;
  p_mu : Sc;
  p_t_hat : Sc;
  p_t : Sc;
  p_a : Sc;
  p_b : Sc
}.

(** The Fiat-Shamir transcript ([CHashWriter]) is the chronological log of
    what was done to it: [transcript << v] appends a write, and
    [transcript.GetHash()] is a function of the log so far and is itself
    logged. *)
Inductive Entry (Sc P : Type) : Type :=
| WriteScalar (s : Sc)
| WritePoint (p : P)
| HashTaken.

Arguments WriteScalar {Sc P} s.
Arguments WritePoint {Sc P} p.
Arguments HashTaken {Sc P}.

(** [TxInToRecover] and [RecoveredTxInput] as [RecoverTxIns] uses them. *)
Record TxInToRecover (Sc P : Type) : Type := mkTxIn {
  in_index : nat;
  in_Vs : list P;
  in_Ls : list P;
  in_Rs : list P;
  in_mu : Sc;
  in_tau_x : Sc;
  in_x : Sc;
  in_z : Sc;
  in_nonce : P
}.

Record RecoveredTxInput (Sc : Type) : Type := mkRecovered {
  out_index : nat;
  out_amount : N;
  out_gamma : Sc;
  out_message : list byte
}.

(** The local variables of the [while] loop of [InnerProductArgument]
    together with the two objects the function receives by reference. *)
Record IpaState (Sc P : Type) : Type := mkIpa {
  n_prime : nat;
  round : nat;
  g_prime : list P;
  h_prime : list P;
  a_prime : list Sc;
  b_prime : list Sc;
  xs : list Sc;
  ipa_proof : Proof Sc P;
  ipa_transcript : list (Entry Sc P)
}.

(** The five [throw std::runtime_error] statements of [Prove]. *)
Inductive ProveError : Type :=
| MessageTooLarge        (* message size is too large *)
| ValueVectorEmpty       (* value vector is empty *)
| TooManyInputValues     (* number of input values exceeds the maximum *)
| ExceededMaxTries       (* exceeded maxinum number of tries *)
| Equality60Failed.      (* equality didn't hold in (60) *)

(** How a call of [Prove] ends.  [OutOfFuel] belongs to the embedding: the
    loops are run with a bound, which the theorems show is never met. *)
Inductive Outcome (Sc P : Type) : Type :=
| Returned (p : Proof Sc P)
| Thrown (e : ProveError)
| OutOfFuel.

Arguments Returned {Sc P} p.
Arguments Thrown {Sc P} e.
Arguments OutOfFuel {Sc P}.

(** The locals of [Prove] that live across [goto try_again]: the
    transcript, the proof under construction, [num_tries], and the number of
    random vectors drawn so far. *)
Record ProveState (Sc P : Type) : Type := mkProveState {
  transcript : list (Entry Sc P);
  proof : Proof Sc P;
  num_tries : nat;
  draws : nat
}.

(** How one pass from [try_again] ends: with a [goto], or for good. *)
Inductive Attempt (Sc P : Type) : Type :=
| TryAgain (st : ProveState Sc P)
| Finished (o : Outcome Sc P) (st : ProveState Sc P).

Arguments TryAgain {Sc P} st.
Arguments Finished {Sc P} o st.

(** ** The arithmetic collaborators *)

Class Arith : Type := {
  Scalar : Type;
  G1Point : Type;
  TokenId : Type;
  cfg : Config;
  (* Scalar *)
  Scalar_of_Z : Z -> Scalar;                 (* Scalar(1), Scalar(2), x == 0 *)
  Scalar_of_vch : list byte -> Scalar;       (* Scalar(std::vector<uint8_t>) *)
  Scalar_default : Scalar;                   (* Scalar() *)
  Scalar_add : Scalar -> Scalar -> Scalar;
  Scalar_sub : Scalar -> Scalar -> Scalar;
  Scalar_mul : Scalar -> Scalar -> Scalar;
  Scalar_shl : Scalar -> nat -> Scalar;      (* operator<< *)
  Scalar_shr : Scalar -> nat -> Scalar;      (* operator>> *)
  Scalar_or : Scalar -> Scalar -> Scalar;    (* operator| *)
  Scalar_and : Scalar -> Scalar -> Scalar;   (* operator& *)
  Scalar_eqb : Scalar -> Scalar -> bool;     (* operator== *)
  Invert : Scalar -> Scalar;
  Negate : Scalar -> Scalar;
  Square : Scalar -> Scalar;
  GetBits : Scalar -> list bool;
  GetVch : Scalar -> list byte;
  GetUint64 : Scalar -> N;
  (* G1Point *)
  G1Point_default : G1Point;
  G1Point_add : G1Point -> G1Point -> G1Point;
  G1Point_mul : G1Point -> Scalar -> G1Point;
  G1Point_eqb : G1Point -> G1Point -> bool;
  GetHashWithSalt : G1Point -> N -> Scalar;
  (* Scalars *)
  FirstNPow : Scalar -> nat -> nat -> list Scalar;   (* (k, n, from_index) *)
  RandVec : nat -> nat -> list Scalar;               (* (draw number, size) *)
  Scalars_To : list Scalar -> nat -> list Scalar;
  Scalars_From : list Scalar -> nat -> list Scalar;
  Scalars_Sum : list Scalar -> Scalar;
  Scalars_add : list Scalar -> list Scalar -> list Scalar;
  Scalars_sub : list Scalar -> list Scalar -> list Scalar;
  Scalars_mul : list Scalar -> list Scalar -> list Scalar;
  Scalars_scale : list Scalar -> Scalar -> list Scalar;
  (* G1Points *)
  G1Points_To : list G1Point -> nat -> list G1Point;
  G1Points_From : list G1Point -> nat -> list G1Point;
  G1Points_Sum : list G1Point -> G1Point;
  G1Points_add : list G1Point -> list G1Point -> list G1Point;
  G1Points_mul : list G1Point -> list Scalar -> list G1Point;
  G1Points_scale : list G1Point -> Scalar -> list G1Point;
  G1Point_mul_vec : G1Point -> list Scalar -> list G1Point;
  (* generator factory, transcript hash *)
  GetInstance : TokenId -> Generators G1Point;
  GetHash : list (Entry Scalar G1Point) -> Scalar;
  (* stages 2 and 3 of Verify, see [Verify] *)
  AggregateCheck : list (nat * Proof Scalar G1Point) -> nat -> TokenId -> bool
}.

(** Modelled from the spec: [GetFirstPowerOf2GreaterOrEqTo] is declared
    outside [range_proof.cpp]; the value count "rounded up to a power of
    two" is the least power of two that is not below [n]. *)
Definition GetFirstPowerOf2GreaterOrEqTo (n : nat) : nat :=
  2 ^ Nat.log2_up n.

(** [size_t] subtraction, 64 bits wide: [x - y] modulo [2^64]. *)
Definition size_t_sub (x y : nat) : nat :=
  N.to_nat ((N.of_nat x + 2 ^ 64 - N.of_nat y mod 2 ^ 64) mod 2 ^ 64).

Section RangeProof.

Context {L : Arith}.

Local Abbreviation Scalars := (list Scalar).
Local Abbreviation G1Points := (list G1Point).
Local Abbreviation proof_t := (Proof Scalar G1Point).
Local Abbreviation transcript_t := (list (Entry Scalar G1Point)).
Local Abbreviation ipa_t := (IpaState Scalar G1Point).
Local Abbreviation outcome_t := (Outcome Scalar G1Point).
Local Abbreviation state_t := (ProveState Scalar G1Point).
Local Abbreviation attempt_t := (Attempt Scalar G1Point).

Definition bits : nat := m_input_value_bits cfg.

Definition is_zero (s : Scalar) : bool := Scalar_eqb s (Scalar_of_Z 0).

(** Static members set by the constructor [RangeProof::RangeProof]. *)
Definition m_one : Scalar := Scalar_of_Z 1.
Definition m_two : Scalar := Scalar_of_Z 2.
Definition m_two_pows : Scalars := FirstNPow m_two bits 0.

(** [operator[]] of the two containers; an index outside the vector is
    undefined in the source and reads the default element here. *)
Definition Scalars_at (v : Scalars) (i : nat) : Scalar := nth i v Scalar_default.
Definition G1Points_at (v : G1Points) (i : nat) : G1Point := nth i v G1Point_default.

(** [Proof proof;]: empty vectors, default scalars and points. *)
Definition empty_proof : proof_t :=
  mkProof [] [] [] G1Point_default G1Point_default G1Point_default
          G1Point_default Scalar_default Scalar_default Scalar_default
          Scalar_default Scalar_default Scalar_default.

(** ** GetTrimmedVch *)

(** One iteration of [for (auto c: vch)] on the pair
    [(take_char, vch_trimmed)]. *)
Definition trim_step (st : bool * list byte) (c : byte) : bool * list byte :=
  let take_char := if negb (fst st) && negb (Byte.eqb c x00) then true else fst st in
  (take_char, if take_char then snd st ++ [c] else snd st).

Definition GetTrimmedVch (s : Scalar) : list byte :=
  snd (fold_left trim_step (GetVch s) (false, [])).

(** ** GetInnerProdArgRounds *)

(** [std::log2] of the power of two is exact; the sum of the two
    logarithms is truncated by the conversion to [size_t], which leaves the
    first logarithm plus the integer part of the second. *)
Definition GetInnerProdArgRounds (num_input_values : nat) : nat :=
  let num_input_values_power_of_2 := GetFirstPowerOf2GreaterOrEqTo num_input_values in
  Nat.log2 num_input_values_power_of_2 + Nat.log2 bits.

(** ** ValidateProofsBySizes and Verify *)

Fixpoint ValidateProofsBySizes (indexed_proofs : list (nat * proof_t))
         (num_rounds : nat) : bool :=
  match indexed_proofs with
  | [] => true
  | p :: rest =>
      let proof := snd p in
      if length (p_Vs proof) =? 0 then false
      else if m_max_input_values cfg <? length (p_Vs proof) then false
      else if negb (length (p_Ls proof) =? num_rounds) then false
      else if negb (length (p_Ls proof) =? length (p_Rs proof)) then false
      else ValidateProofsBySizes rest num_rounds
  end.

(** [Verify]: the shape validation is embedded as written.  What follows it
    ([VerifyLoop1], which needs [ProofWithDerivedValues::Build];
    [VerifyLoop2], which draws random weights and ends without a [return];
    the final multi-exponentiation) is the collaborator [AggregateCheck]. *)
Definition Verify (indexed_proofs : list (nat * proof_t)) (token_id : TokenId) : bool :=
  let num_rounds := GetInnerProdArgRounds (m_input_value_bits cfg) in
  if negb (ValidateProofsBySizes indexed_proofs num_rounds) then false
  else AggregateCheck indexed_proofs num_rounds token_id.

(** ** RecoverTxIns *)

Local Abbreviation txin_t := (TxInToRecover Scalar G1Point).

Definition input_value0_gamma_of (tx_in : txin_t) : Scalar :=
  GetHashWithSalt (in_nonce tx_in) 100.

Definition message_v0_of (tx_in : txin_t) : Scalar :=
  let alpha := GetHashWithSalt (in_nonce tx_in) 1 in
  let rho := GetHashWithSalt (in_nonce tx_in) 2 in
  Scalar_sub (Scalar_sub (in_mu tx_in) (Scalar_mul rho (in_x tx_in))) alpha.

Definition input_value0_of (tx_in : txin_t) : Scalar :=
  Scalar_and (message_v0_of tx_in) (Scalar_of_Z 0xFFFFFFFFFFFFFFFF).

Definition input_value0_commitment_of (gens : Generators G1Point) (tx_in : txin_t)
  : G1Point :=
  G1Point_add (G1Point_mul (g_G gens) (input_value0_gamma_of tx_in))
              (G1Point_mul (g_H gens) (input_value0_of tx_in)).

Definition msg2_scalar_of (tx_in : txin_t) : Scalar :=
  let tau1 := GetHashWithSalt (in_nonce tx_in) 3 in
  let tau2 := GetHashWithSalt (in_nonce tx_in) 4 in
  let tau_x := in_tau_x tx_in in
  let x := in_x tx_in in
  let z := in_z tx_in in
  Scalar_sub
    (Scalar_mul
       (Scalar_sub (Scalar_sub tau_x (Scalar_mul tau2 (Square x)))
                   (Scalar_mul (Square z) (input_value0_gamma_of tx_in)))
       (Invert x))
    tau1.

(** The body of [for (const TxInToRecover& tx_in: tx_ins)]: [None] is a
    [continue], [Some] is the [push_back]. *)
Definition recover_tx_in (gens : Generators G1Point) (tx_in : txin_t)
  : option (RecoveredTxInput Scalar) :=
  let Ls_Rs_valid :=
    (0 <? length (in_Ls tx_in)) && (length (in_Ls tx_in) =? length (in_Rs tx_in)) in
  if (length (in_Vs tx_in) =? 0) || negb Ls_Rs_valid then None
  else
    let input_value0_commitment := input_value0_commitment_of gens tx_in in
    if negb (G1Point_eqb input_value0_commitment (G1Points_at (in_Vs tx_in) 0)) then None
    else
      let msg1 := GetTrimmedVch (Scalar_shr (message_v0_of tx_in) 64) in
      let msg2 := GetTrimmedVch (msg2_scalar_of tx_in) in
      Some (mkRecovered (in_index tx_in)
                        (GetUint64 (input_value0_of tx_in))
                        (input_value0_gamma_of tx_in)
                        (msg1 ++ msg2)).

Fixpoint recover_loop (gens : Generators G1Point) (tx_ins : list txin_t)
         (recovered_tx_ins : list (RecoveredTxInput Scalar))
  : list (RecoveredTxInput Scalar) :=
  match tx_ins with
  | [] => recovered_tx_ins
  | tx_in :: rest =>
      match recover_tx_in gens tx_in with
      | None => recover_loop gens rest recovered_tx_ins
      | Some recovered_tx_in =>
          recover_loop gens rest (recovered_tx_ins ++ [recovered_tx_in])
      end
  end.

Definition RecoverTxIns (tx_ins : list txin_t) (token_id : TokenId)
  : list (RecoveredTxInput Scalar) :=
  let gens := GetInstance token_id in
  recover_loop gens tx_ins [].

(** ** Field updates of [Proof] *)

Definition set_Vs (p : proof_t) (v : G1Points) : proof_t :=
  mkProof v (p_Ls p) (p_Rs p) (p_A p) (p_S p) (p_T1 p) (p_T2 p)
          (p_tau_x p) (p_mu p) (p_t_hat p) (p_t p) (p_a p) (p_b p).
Definition set_Ls (p : proof_t) (v : G1Points) : proof_t :=
  mkProof (p_Vs p) v (p_Rs p) (p_A p) (p_S p) (p_T1 p) (p_T2 p)
          (p_tau_x p) (p_mu p) (p_t_hat p) (p_t p) (p_a p) (p_b p).
Definition set_Rs (p : proof_t) (v : G1Points) : proof_t :=
  mkProof (p_Vs p) (p_Ls p) v (p_A p) (p_S p) (p_T1 p) (p_T2 p)
          (p_tau_x p) (p_mu p) (p_t_hat p) (p_t p) (p_a p) (p_b p).
Definition set_A (p : proof_t) (v : G1Point) : proof_t :=
  mkProof (p_Vs p) (p_Ls p) (p_Rs p) v (p_S p) (p_T1 p) (p_T2 p)
          (p_tau_x p) (p_mu p) (p_t_hat p) (p_t p) (p_a p) (p_b p).
Definition set_S (p : proof_t) (v : G1Point) : proof_t :=
  mkProof (p_Vs p) (p_Ls p) (p_Rs p) (p_A p) v (p_T1 p) (p_T2 p)
          (p_tau_x p) (p_mu p) (p_t_hat p) (p_t p) (p_a p) (p_b p).
Definition set_T1 (p : proof_t) (v : G1Point) : proof_t :=
  mkProof (p_Vs p) (p_Ls p) (p_Rs p) (p_A p) (p_S p) v (p_T2 p)
          (p_tau_x p) (p_mu p) (p_t_hat p) (p_t p) (p_a p) (p_b p).
Definition set_T2 (p : proof_t) (v : G1Point) : proof_t :=
  mkProof (p_Vs p) (p_Ls p) (p_Rs p) (p_A p) (p_S p) (p_T1 p) v
          (p_tau_x p) (p_mu p) (p_t_hat p) (p_t p) (p_a p) (p_b p).
Definition set_tau_x (p : proof_t) (v : Scalar) : proof_t :=
  mkProof (p_Vs p) (p_Ls p) (p_Rs p) (p_A p) (p_S p) (p_T1 p) (p_T2 p)
          v (p_mu p) (p_t_hat p) (p_t p) (p_a p) (p_b p).
Definition set_mu (p : proof_t) (v : Scalar) : proof_t :=
  mkProof (p_Vs p) (p_Ls p) (p_Rs p) (p_A p) (p_S p) (p_T1 p) (p_T2 p)
          (p_tau_x p) v (p_t_hat p) (p_t p) (p_a p) (p_b p).
Definition set_t_hat (p : proof_t) (v : Scalar) : proof_t :=
  mkProof (p_Vs p) (p_Ls p) (p_Rs p) (p_A p) (p_S p) (p_T1 p) (p_T2 p)
          (p_tau_x p) (p_mu p) v (p_t p) (p_a p) (p_b p).
Definition set_a (p : proof_t) (v : Scalar) : proof_t :=
  mkProof (p_Vs p) (p_Ls p) (p_Rs p) (p_A p) (p_S p) (p_T1 p) (p_T2 p)
          (p_tau_x p) (p_mu p) (p_t_hat p) (p_t p) v (p_b p).
Definition set_b (p : proof_t) (v : Scalar) : proof_t :=
  mkProof (p_Vs p) (p_Ls p) (p_Rs p) (p_A p) (p_S p) (p_T1 p) (p_T2 p)
          (p_tau_x p) (p_mu p) (p_t_hat p) (p_t p) (p_a p) v.

(** ** InnerProductArgument *)

(** One pass through the loop body.  [inr] is the [return false] on a zero
    challenge: [Ls] and [Rs] have already been extended by then. *)
Definition ipa_round (gens : Generators G1Point) (x_ip : Scalar)
           (scale_factors : Scalars) (s : ipa_t)
  : ipa_t + (proof_t * transcript_t) :=
  let n_prime := n_prime s / 2 in
  let cL := Scalars_Sum (Scalars_mul (Scalars_To (a_prime s) n_prime)
                                     (Scalars_From (b_prime s) n_prime)) in
  let cR := Scalars_Sum (Scalars_mul (Scalars_From (a_prime s) n_prime)
                                     (Scalars_To (b_prime s) n_prime)) in
  let extra_scalar_cL := Scalar_mul cL x_ip in
  let proof :=
    set_Ls (ipa_proof s)
      (p_Ls (ipa_proof s) ++
       [G1Point_add
          (G1Point_add
             (G1Points_Sum (G1Points_mul (G1Points_From (g_prime s) n_prime)
                                         (Scalars_To (a_prime s) n_prime)))
             (G1Points_Sum
                (G1Points_mul (G1Points_To (h_prime s) n_prime)
                   (if round s =? 0
                    then Scalars_mul (b_prime s) (Scalars_To scale_factors n_prime)
                    else Scalars_From (b_prime s) n_prime))))
          (G1Point_mul (g_H gens) extra_scalar_cL)]) in
  let extra_scalar_cR := Scalar_mul cR x_ip in
  let proof :=
    set_Rs proof
      (p_Rs proof ++
       [G1Point_add
          (G1Point_add
             (G1Points_Sum (G1Points_mul (G1Points_To (g_prime s) n_prime)
                                         (Scalars_From (a_prime s) n_prime)))
             (G1Points_Sum
                (G1Points_mul (G1Points_From (h_prime s) n_prime)
                   (if round s =? 0
                    then Scalars_mul (b_prime s) (Scalars_From scale_factors n_prime)
                    else Scalars_To (b_prime s) n_prime))))
          (G1Point_mul (g_H gens) extra_scalar_cR)]) in
  let transcript := ipa_transcript s ++ [WritePoint (G1Points_at (p_Ls proof) (round s))] in
  let transcript := transcript ++ [WritePoint (G1Points_at (p_Rs proof) (round s))] in
  let x := GetHash transcript in
  let transcript := transcript ++ [HashTaken] in
  if is_zero x then inr (proof, transcript)
  else
    let x_inv := Invert x in
    let xs := xs s ++ [x] in
    let g_prime' :=
      if 1 <? n_prime
      then G1Points_add (G1Points_scale (G1Points_To (g_prime s) n_prime) x_inv)
                        (G1Points_scale (G1Points_From (g_prime s) n_prime) x)
      else g_prime s in
    let h_prime' :=
      if 1 <? n_prime
      then
        let sf_ws := Scalars_scale scale_factors x in
        let sf_w_invs := Scalars_scale scale_factors x_inv in
        G1Points_add (G1Points_mul (G1Points_To (h_prime s) n_prime) sf_ws)
                     (G1Points_mul (G1Points_From (h_prime s) n_prime) sf_w_invs)
      else h_prime s in
    let a_prime' :=
      Scalars_add (Scalars_scale (Scalars_To (a_prime s) n_prime) x)
                  (Scalars_scale (Scalars_From (a_prime s) n_prime) x_inv) in
    let b_prime' :=
      Scalars_add (Scalars_scale (Scalars_To (b_prime s) n_prime) x_inv)
                  (Scalars_scale (Scalars_From (b_prime s) n_prime) x) in
    inl (mkIpa n_prime (S (round s)) g_prime' h_prime' a_prime' b_prime' xs
               proof transcript).

(** [while (n_prime > 1)] with the two assignments after it.  [None] means
    that [fuel] passes did not reach [n_prime <= 1]. *)
Fixpoint ipa_loop (fuel : nat) (gens : Generators G1Point) (x_ip : Scalar)
         (scale_factors : Scalars) (s : ipa_t) {struct fuel}
  : option (bool * proof_t * transcript_t) :=
  if n_prime s <=? 1 then
    let proof := set_a (ipa_proof s) (Scalars_at (a_prime s) 0) in
    let proof := set_b proof (Scalars_at (b_prime s) 0) in
    Some (true, proof, ipa_transcript s)
  else
    match fuel with
    | 0 => None
    | S fuel' =>
        match ipa_round gens x_ip scale_factors s with
        | inl s' => ipa_loop fuel' gens x_ip scale_factors s'
        | inr (proof, transcript) => Some (false, proof, transcript)
        end
    end.

(** [n_prime] is halved by every pass, so [input_value_vec_len] passes are
    enough (lemma [ipa_loop_fuel_enough]). *)
Definition InnerProductArgument (input_value_vec_len : nat)
           (gens : Generators G1Point) (x_ip : Scalar) (l r : Scalars) (y : Scalar)
           (proof : proof_t) (transcript : transcript_t)
  : option (bool * proof_t * transcript_t) :=
  let scale_factors := FirstNPow (Invert y) input_value_vec_len 0 in
  ipa_loop input_value_vec_len gens x_ip scale_factors
           (mkIpa input_value_vec_len 0 (g_Gi gens) (g_Hi gens) l r []
                  proof transcript).

(** ** Prove *)

Definition Scalar_of_bool (b : bool) : Scalar := Scalar_of_Z (if b then 1 else 0).

(** The bits one value contributes to [aL]: the inner loops of
    [for(Scalar& v: vs.m_vec)].  The definition is exact for a value of at
    most [m_input_value_bits] binary digits.  For a wider value the count
    [m_input_value_bits - bits.size()] wraps on [size_t], and the vector of
    the source cannot hold the entries the loop then asks for: such a run
    ends in the padding loop and never reaches [try_again]. *)
Definition value_bits (v : Scalar) : Scalars :=
  let bits_v := GetBits v in
  map Scalar_of_bool bits_v
  ++ repeat (Scalar_of_bool false) (size_t_sub bits (length bits_v)).

Definition flatten_aL (vs : Scalars) : Scalars := flat_map value_bits vs.

(** The last term of r(X): the double loop filling [z_n_times_two_n]. *)
Definition compute_z_n_times_two_n (z_pows : Scalars)
           (concat_input_values_in_bits : nat) : Scalars :=
  let two_pows := m_two_pows in
  flat_map
    (fun i =>
       let base_z := Scalars_at z_pows i in
       map (fun bit_idx => Scalar_mul base_z (Scalars_at two_pows bit_idx))
           (seq 0 bits))
    (seq 0 concat_input_values_in_bits).

(** From the label [try_again] to the next [goto], [throw] or [return]. *)
Definition prove_attempt (vs : Scalars) (nonce : G1Point) (message : list byte)
           (gens : Generators G1Point) (gammas aL aR : Scalars)
           (concat_input_values_in_bits : nat) (st : state_t) : attempt_t :=
  let num_tries := S (num_tries st) in
  if m_max_prove_tries cfg <? num_tries then
    Finished (Thrown ExceededMaxTries)
             (mkProveState (transcript st) (proof st) num_tries (draws st))
  else
  let msg1_scalar :=
    Scalar_of_vch (if 23 <? length message then firstn 23 message else message) in
  let msg1_v0 := Scalar_or (Scalar_shl msg1_scalar bits) (Scalars_at vs 0) in
  let alpha := GetHashWithSalt nonce 1 in
  let alpha := Scalar_add alpha msg1_v0 in
  let proof :=
    set_A (proof st)
      (G1Point_add
         (G1Point_add (G1Point_mul (g_H gens) alpha)
                      (G1Points_Sum (G1Points_mul (g_Gi gens) aL)))
         (G1Points_Sum (G1Points_mul (g_Hi gens) aR))) in
  let sL := RandVec (draws st) bits in
  let sR := RandVec (S (draws st)) bits in
  let draws := S (S (draws st)) in
  let rho := GetHashWithSalt nonce 2 in
  let proof :=
    set_S proof
      (G1Point_add
         (G1Point_add (G1Point_mul (g_H gens) rho)
                      (G1Points_Sum (G1Points_mul (g_Gi gens) sL)))
         (G1Points_Sum (G1Points_mul (g_Hi gens) sR))) in
  let transcript := transcript st ++ [WritePoint (p_A proof)] in
  let transcript := transcript ++ [WritePoint (p_S proof)] in
  let y := GetHash transcript in
  let transcript := transcript ++ [HashTaken] in
  if is_zero y then TryAgain (mkProveState transcript proof num_tries draws) else
  let transcript := transcript ++ [WriteScalar y] in
  let z := GetHash transcript in
  let transcript := transcript ++ [HashTaken] in
  if is_zero z then TryAgain (mkProveState transcript proof num_tries draws) else
  let transcript := transcript ++ [WriteScalar z] in
  let z_value_total_bits := FirstNPow z concat_input_values_in_bits 0 in
  let l0 := Scalars_sub aL z_value_total_bits in
  let l1 := sL in
  let z_pows := FirstNPow z concat_input_values_in_bits 2 in
  let z_n_times_two_n := compute_z_n_times_two_n z_pows concat_input_values_in_bits in
  let y_value_total_bits := FirstNPow y concat_input_values_in_bits 0 in
  let r0 :=
    Scalars_add (Scalars_mul y_value_total_bits (Scalars_add aR z_value_total_bits))
                z_n_times_two_n in
  let r1 := Scalars_mul y_value_total_bits sR in
  let t1 := Scalar_add (Scalars_Sum (Scalars_mul l0 r1))
                       (Scalars_Sum (Scalars_mul l1 r0)) in
  let t2 := Scalars_Sum (Scalars_mul l1 r1) in
  let tau1 := GetHashWithSalt nonce 3 in
  let tau2 := GetHashWithSalt nonce 4 in
  let msg2_scalar :=
    Scalar_of_vch (if 23 <? length message then skipn 23 message else []) in
  let tau1 := Scalar_add tau1 msg2_scalar in
  let proof :=
    set_T1 proof (G1Point_add (G1Point_mul (g_G gens) t1)
                              (G1Point_mul (g_H gens) tau1)) in
  let proof :=
    set_T2 proof (G1Point_add (G1Point_mul (g_G gens) t2)
                              (G1Point_mul (g_H gens) tau2)) in
  let transcript := transcript ++ [WritePoint (p_T1 proof)] in
  let transcript := transcript ++ [WritePoint (p_T2 proof)] in
  let x := GetHash transcript in
  let transcript := transcript ++ [HashTaken] in
  if is_zero x then TryAgain (mkProveState transcript proof num_tries draws) else
  let l := Scalars_add l0 (Scalars_scale l1 x) in
  let r := Scalars_add r0 (Scalars_scale r1 x) in
  let proof := set_t_hat proof (Scalars_Sum (Scalars_mul l r)) in
  let t0 := Scalars_Sum (Scalars_mul l0 r0) in
  let t_of_x :=
    Scalar_add (Scalar_add t0 (Scalar_mul t1 x)) (Scalar_mul t2 (Square x)) in
  if negb (Scalar_eqb (p_t_hat proof) t_of_x) then
    Finished (Thrown Equality60Failed)
             (mkProveState transcript proof num_tries draws)
  else
  let proof :=
    set_tau_x proof
      (Scalar_add (Scalar_add (Scalar_mul tau2 (Square x)) (Scalar_mul tau1 x))
                  (Scalars_Sum (Scalars_mul z_pows gammas))) in
  let proof := set_mu proof (Scalar_add alpha (Scalar_mul rho x)) in
  let transcript := transcript ++ [WriteScalar x] in
  let transcript := transcript ++ [WriteScalar (p_tau_x proof)] in
  let transcript := transcript ++ [WriteScalar (p_mu proof)] in
  let transcript := transcript ++ [WriteScalar (p_t proof)] in
  let x_ip := GetHash transcript in
  let transcript := transcript ++ [HashTaken] in
  if is_zero x_ip then TryAgain (mkProveState transcript proof num_tries draws) else
  match InnerProductArgument concat_input_values_in_bits gens x_ip l r y
                             proof transcript with
  | None => Finished OutOfFuel (mkProveState transcript proof num_tries draws)
  | Some (false, proof, transcript) =>
      TryAgain (mkProveState transcript proof num_tries draws)
  | Some (true, proof, transcript) =>
      Finished (Returned proof) (mkProveState transcript proof num_tries draws)
  end.

(** The jumps back to [try_again]. *)
Fixpoint try_again (fuel : nat) (attempt : state_t -> attempt_t)
         (st : state_t) : outcome_t * state_t :=
  match fuel with
  | 0 => (OutOfFuel, st)
  | S fuel' =>
      match attempt st with
      | TryAgain st' => try_again fuel' attempt st'
      | Finished o st' => (o, st')
      end
  end.

Definition initial_state : state_t := mkProveState [] empty_proof 0 0.

(** [Prove] together with the final value of its locals.  The counter
    [num_tries] stops every run after at most [m_max_prove_tries + 1] entries
    at [try_again], which is the bound the loop is run with. *)
Definition Prove_trace (vs : Scalars) (nonce : G1Point) (message : list byte)
           (token_id : TokenId) : outcome_t * state_t :=
  if m_max_message_size cfg <? length message then
    (Thrown MessageTooLarge, initial_state)
  else if length vs =? 0 then
    (Thrown ValueVectorEmpty, initial_state)
  else if m_max_input_values cfg <? length vs then
    (Thrown TooManyInputValues, initial_state)
  else
    let num_input_values_power_2 := GetFirstPowerOf2GreaterOrEqTo (length vs) in
    let concat_input_values_in_bits := num_input_values_power_2 * bits in
    let proof := empty_proof in
    let gammas :=
      map (fun i => GetHashWithSalt nonce (100 + N.of_nat i)) (seq 0 (length vs)) in
    let gens := GetInstance token_id in
    let transcript : transcript_t := [] in
    let proof :=
      set_Vs proof (G1Points_add (G1Point_mul_vec (g_H gens) gammas)
                                 (G1Point_mul_vec (g_G gens) vs)) in
    let transcript :=
      transcript
      ++ map (fun i => WritePoint (G1Points_at (p_Vs proof) i)) (seq 0 (length vs)) in
    let aL := flatten_aL vs in
    let one_value_concat_bits := FirstNPow m_one concat_input_values_in_bits 0 in
    let aR := Scalars_sub aL one_value_concat_bits in
    try_again (S (m_max_prove_tries cfg))
              (prove_attempt vs nonce message gens gammas aL aR
                             concat_input_values_in_bits)
              (mkProveState transcript proof 0 0).

Definition Prove (vs : Scalars) (nonce : G1Point) (message : list byte)
           (token_id : TokenId) : outcome_t :=
  fst (Prove_trace vs nonce message token_id).

(** ** Vocabulary of the statements *)

(** A byte string without its leading zero bytes. *)
Fixpoint strip_leading_zeros (vch : list byte) : list byte :=
  match vch with
  | [] => []
  | c :: rest => if Byte.eqb c x00 then strip_leading_zeros rest else vch
  end.

(** The entry [RecoverTxIns] pushes for an input it recovers. *)
Definition recovered_entry (tx_in : txin_t) : RecoveredTxInput Scalar :=
  mkRecovered (in_index tx_in)
              (GetUint64 (input_value0_of tx_in))
              (input_value0_gamma_of tx_in)
              (GetTrimmedVch (Scalar_shr (message_v0_of tx_in) 64)
               ++ GetTrimmedVch (msg2_scalar_of tx_in)).

(** The checks an input has to pass to be recovered. *)
Definition passes_checks (gens : Generators G1Point) (tx_in : txin_t) : Prop :=
  in_Vs tx_in <> [] /\
  in_Ls tx_in <> [] /\
  length (in_Ls tx_in) = length (in_Rs tx_in) /\
  G1Point_eqb (input_value0_commitment_of gens tx_in)
              (G1Points_at (in_Vs tx_in) 0) = true.

(** The three errors raised by the argument checks at the top of [Prove]. *)
Definition is_precondition_error (e : ProveError) : bool :=
  match e with
  | MessageTooLarge | ValueVectorEmpty | TooManyInputValues => true
  | ExceededMaxTries | Equality60Failed => false
  end.

(** What the rounds of the inner-product argument keep of a proof and what
    they add: [k] more entries in [Ls] and in [Rs]. *)
Definition same_but_rounds (p p' : proof_t) (k : nat) : Prop :=
  p_Vs p' = p_Vs p /\ p_t p' = p_t p /\
  length (p_Ls p') = length (p_Ls p) + k /\
  length (p_Rs p') = length (p_Rs p) + k.

(** What one attempt of [Prove], started in state [st], may end with. *)
Definition attempt_ok (concat : nat) (st : state_t) (a : attempt_t) : Prop :=
  match a with
  | TryAgain st' =>
      num_tries st' = S (num_tries st) /\
      S (num_tries st) <= m_max_prove_tries cfg /\
      exists k, same_but_rounds (proof st) (proof st') k /\ k <= Nat.log2 concat
  | Finished (Returned p) st' =>
      num_tries st' = S (num_tries st) /\
      S (num_tries st) <= m_max_prove_tries cfg /\
      proof st' = p /\
      same_but_rounds (proof st) p (Nat.log2 concat)
  | Finished (Thrown e) st' =>
      num_tries st' = S (num_tries st) /\
      ((e = ExceededMaxTries /\ m_max_prove_tries cfg < S (num_tries st) /\
        transcript st' = transcript st /\ proof st' = proof st) \/
       (e = Equality60Failed /\ S (num_tries st) <= m_max_prove_tries cfg))
  | Finished OutOfFuel _ => False
  end.

(** What the retry loop, entered in state [st], may end with: it does not
    run out of fuel; [num_tries] ends at [m_max_prove_tries + 1] when the
    retry budget is exceeded and at most at [m_max_prove_tries] otherwise;
    it throws none of the argument errors; a returned proof has gained at
    least [log2 concat] rounds, and exactly that many when the first attempt
    succeeds. *)
Definition run_ok (concat : nat) (st : state_t) (res : outcome_t * state_t)
  : Prop :=
  let (o, st') := res in
  o <> OutOfFuel /\
  ((o = Thrown ExceededMaxTries /\ num_tries st' = S (m_max_prove_tries cfg)) \/
   (o <> Thrown ExceededMaxTries /\ num_tries st < num_tries st'
    /\ num_tries st' <= m_max_prove_tries cfg)) /\
  (forall e, o = Thrown e -> is_precondition_error e = false) /\
  (forall p, o = Returned p ->
             proof st' = p /\
             exists k, same_but_rounds (proof st) p k /\ Nat.log2 concat <= k /\
                       (num_tries st' = S (num_tries st) -> k = Nat.log2 concat)).

(** The argument checks of [Prove], as the conditions under which they
    throw. *)
Definition arguments_rejected (vs : Scalars) (message : list byte) : Prop :=
  m_max_message_size cfg < length message \/ vs = [] \/
  m_max_input_values cfg < length vs.

(** The locals of [Prove] when it reaches [try_again] for the first time. *)
Definition first_state (vs : Scalars) (nonce : G1Point) (token_id : TokenId)
  : state_t :=
  let gammas :=
    map (fun i => GetHashWithSalt nonce (100 + N.of_nat i)) (seq 0 (length vs)) in
  let gens := GetInstance token_id in
  let proof :=
    set_Vs empty_proof (G1Points_add (G1Point_mul_vec (g_H gens) gammas)
                                     (G1Point_mul_vec (g_G gens) vs)) in
  mkProveState
    (map (fun i => WritePoint (G1Points_at (p_Vs proof) i)) (seq 0 (length vs)))
    proof 0 0.

(** The number of challenges derived from a transcript. *)
Definition count_hashes (log : transcript_t) : nat :=
  length (filter (fun e => match e with HashTaken => true | _ => false end) log).

(** The transcript of a run without retry, in the order
    [Vs.., A, S, (y), y, (z), z, T1, T2, (x), x, tau_x, mu, fourth, (x_ip)]
    followed by [L, R, (challenge)] for every round; [fourth] is the scalar
    written after [mu]. *)
Definition rounds_log (Ls Rs : G1Points) : transcript_t :=
  flat_map (fun LR => [WritePoint (fst LR); WritePoint (snd LR); HashTaken])
           (combine Ls Rs).

Definition attempt_log (p : proof_t) (y z x fourth : Scalar) : transcript_t :=
  [WritePoint (p_A p); WritePoint (p_S p); HashTaken; WriteScalar y;
   HashTaken; WriteScalar z; WritePoint (p_T1 p); WritePoint (p_T2 p);
   HashTaken; WriteScalar x; WriteScalar (p_tau_x p); WriteScalar (p_mu p);
   WriteScalar fourth; HashTaken]
  ++ rounds_log (p_Ls p) (p_Rs p).

Definition ordered_transcript (p : proof_t) (y z x fourth : Scalar) : transcript_t :=
  map WritePoint (p_Vs p) ++ attempt_log p y z x fourth.

(** The members of a proof that the inner-product argument leaves alone. *)
Definition same_commitments (p p' : proof_t) : Prop :=
  p_Vs p' = p_Vs p /\ p_A p' = p_A p /\ p_S p' = p_S p /\
  p_T1 p' = p_T1 p /\ p_T2 p' = p_T2 p /\ p_tau_x p' = p_tau_x p /\
  p_mu p' = p_mu p /\ p_t_hat p' = p_t_hat p /\ p_t p' = p_t p.

End RangeProof.

(** ** A concrete implementation of the collaborators

    Used to run the embedding on explicit inputs.  Scalars are the integers
    modulo the order [bls_r] of the BLS12-381 groups; a group element is
    represented by its discrete logarithm with respect to a fixed base
    point, so that point addition and scalar multiplication are addition
    and multiplication modulo [bls_r].  Vector operations act element-wise
    up to the length of the shorter operand.  The transcript hash [h] is a
    parameter, which lets a run meet a zero challenge at a chosen place. *)

Local Open Scope Z_scope.

Definition bls_r : Z :=
  0x73eda753299d7d483339d80809a1d80553bda402fffe5bfeffffffff00000001.

(** Reduction and multiplication modulo [bls_r], computed on machine words
    (lemmas [zr_spec] and [mulr_spec]). *)
Definition big_r : bigZ := Eval vm_compute in BigZ.of_Z bls_r.

Definition zr (z : Z) : Z := BigZ.to_Z (BigZ.modulo (BigZ.of_Z z) big_r).

Definition mulr (x y : Z) : Z :=
  BigZ.to_Z (BigZ.modulo (BigZ.mul (BigZ.of_Z x) (BigZ.of_Z y)) big_r).

Fixpoint pow_mod (b : Z) (e : positive) : Z :=
  match e with
  | xH => zr b
  | xO e' => let h := pow_mod b e' in mulr h h
  | xI e' => let h := pow_mod b e' in mulr (mulr h h) b
  end.

Definition toy_pow (b : Z) (e : nat) : Z :=
  match Pos.of_nat e, e with
  | _, O => 1
  | p, _ => pow_mod b p
  end.

Definition toy_invert (x : Z) : Z :=
  match bls_r - 2 with
  | Zpos p => pow_mod x p
  | _ => 0
  end.

Definition byte_of_Z (z : Z) : byte :=
  match Byte.of_N (Z.to_N (z mod 256)) with
  | Some b => b
  | None => x00
  end.

Definition Z_of_byte (b : byte) : Z := Z.of_N (Byte.to_N b).

(** Big-endian bytes to an integer and back (32 bytes). *)
Definition toy_of_vch (vch : list byte) : Z :=
  zr (fold_left (fun acc b => acc * 256 + Z_of_byte b) vch 0).

Definition toy_vch (s : Z) : list byte :=
  map (fun i => byte_of_Z (Z.shiftr s (8 * Z.of_nat (31 - i)))) (seq 0 32).

(** Binary digits, most significant first, without leading zeros. *)
Fixpoint pos_bits (p : positive) (acc : list bool) : list bool :=
  match p with
  | xH => true :: acc
  | xO p' => pos_bits p' (false :: acc)
  | xI p' => pos_bits p' (true :: acc)
  end.

Definition toy_bits (s : Z) : list bool :=
  match s with
  | Zpos p => pos_bits p []
  | _ => [false]
  end.

Fixpoint zip_with {X Y W : Type} (f : X -> Y -> W) (u : list X) (v : list Y)
  : list W :=
  match u, v with
  | x :: u', y :: v' => f x y :: zip_with f u' v'
  | _, _ => []
  end.

Definition toy_sum (v : list Z) : Z := fold_left (fun acc s => zr (acc + s)) v 0.

Definition toy_generators (token_id : nat) : Generators Z :=
  let base := Z.of_nat token_id * 4099 in
  mkGenerators (zr (base + 2)) (zr (base + 3))
               (map (fun i => zr (base + 5 + 2 * Z.of_nat i)) (seq 0 1024))
               (map (fun i => zr (base + 6 + 2 * Z.of_nat i)) (seq 0 1024)).

Definition toy_config : Config := mkConfig 64 16 54 100.

Definition toy (h : list (Entry Z Z) -> Z) : Arith := {|
  Scalar := Z;
  G1Point := Z;
  TokenId := nat;
  cfg := toy_config;
  Scalar_of_Z := zr;
  Scalar_of_vch := toy_of_vch;
  Scalar_default := 0;
  Scalar_add := fun x y => zr (x + y);
  Scalar_sub := fun x y => zr (x - y);
  Scalar_mul := mulr;
  Scalar_shl := fun x n => zr (Z.shiftl x (Z.of_nat n));
  Scalar_shr := fun x n => Z.shiftr x (Z.of_nat n);
  Scalar_or := fun x y => zr (Z.lor x y);
  Scalar_and := Z.land;
  Scalar_eqb := Z.eqb;
  Invert := toy_invert;
  Negate := fun x => zr (- x);
  Square := fun x => mulr x x;
  GetBits := toy_bits;
  GetVch := toy_vch;
  GetUint64 := fun x => Z.to_N (x mod 2 ^ 64);
  G1Point_default := 0;
  G1Point_add := fun p q => zr (p + q);
  G1Point_mul := mulr;
  G1Point_eqb := Z.eqb;
  GetHashWithSalt := fun p salt => zr (p * 1000003 + Z.of_N salt * 7919 + 17);
  FirstNPow := fun k n from_index => map (toy_pow k) (seq from_index n);
  RandVec := fun draw n =>
               map (fun i => zr (Z.of_nat draw * 1009 + Z.of_nat i + 1)) (seq 0 n);
  Scalars_To := fun v n => firstn n v;
  Scalars_From := fun v n => skipn n v;
  Scalars_Sum := toy_sum;
  Scalars_add := zip_with (fun x y => zr (x + y));
  Scalars_sub := zip_with (fun x y => zr (x - y));
  Scalars_mul := zip_with (mulr);
  Scalars_scale := fun v s => map (fun x => mulr x s) v;
  G1Points_To := fun v n => firstn n v;
  G1Points_From := fun v n => skipn n v;
  G1Points_Sum := toy_sum;
  G1Points_add := zip_with (fun p q => zr (p + q));
  G1Points_mul := zip_with (mulr);
  G1Points_scale := fun v s => map (fun p => mulr p s) v;
  G1Point_mul_vec := fun p v => map (fun s => mulr p s) v;
  GetInstance := toy_generators;
  GetHash := h;
  AggregateCheck := fun _ _ _ => true
|}.

(** Three transcript hashes: one that mixes the log, one that is always
    zero, and one that is zero exactly at the hash number [k] (counted from
    zero) of the run. *)
Definition entry_code (e : Entry Z Z) : Z :=
  match e with
  | WriteScalar s => 3 * s + 1
  | WritePoint p => 3 * p + 2
  | HashTaken => 3
  end.

Definition mixing_hash (log : list (Entry Z Z)) : Z :=
  zr (1 + fold_left (fun acc e => zr (acc * 1000003 + entry_code e)) log 7).

Definition zero_hash (log : list (Entry Z Z)) : Z := 0.

Definition hashes_taken (log : list (Entry Z Z)) : nat :=
  length (filter (fun e => match e with HashTaken => true | _ => false end) log).

Definition zero_at_hash (k : nat) (log : list (Entry Z Z)) : Z :=
  if (hashes_taken log =? k)%nat then 0 else mixing_hash log.

(** The inputs of the examples: the value 100, an 11-byte message. *)
Definition hello_world : list byte :=
  [x68; x65; x6c; x6c; x6f; x20; x77; x6f; x72; x6c; x64].

Definition toy_nonce : Z := 123456789.

Local Close Scope Z_scope.

(** The run of [Prove] on these inputs with the mixing hash, which meets no
    zero challenge. *)
Definition honest_run : Outcome Z Z * ProveState Z Z :=
  Eval vm_compute in
    Prove_trace (L := toy mixing_hash) [100%Z] toy_nonce hello_world 0.

Definition honest_proof : Proof Z Z :=
  Eval vm_compute in
    match fst honest_run with
    | Returned p => p
    | _ => empty_proof (L := toy mixing_hash)
    end.

Definition honest_state : ProveState Z Z :=
  Eval vm_compute in snd honest_run.

(** The challenges [z] and [x] of that run, as the transcript holds them,
    and the input handed to [RecoverTxIns]. *)
Definition scalar_written (log : list (Entry Z Z)) (i : nat) : Z :=
  match nth i log HashTaken with
  | WriteScalar s => s
  | _ => 0%Z
  end.

Definition honest_y : Z :=
  Eval vm_compute in scalar_written (transcript honest_state) 4.
Definition honest_z : Z :=
  Eval vm_compute in scalar_written (transcript honest_state) 6.
Definition honest_x : Z :=
  Eval vm_compute in scalar_written (transcript honest_state) 10.

Definition honest_tx_in : TxInToRecover Z Z :=
  mkTxIn 0 (p_Vs honest_proof) (p_Ls honest_proof) (p_Rs honest_proof)
         (p_mu honest_proof) (p_tau_x honest_proof) honest_x honest_z toy_nonce.

(** The same inputs with a hash whose fifth challenge, the one of the first
    round of the inner-product argument, is zero. *)
Definition retried_run
  : Outcome Z Z * ProveState Z Z :=
  Eval vm_compute in
    Prove_trace (L := toy (zero_at_hash 4)) [100%Z] toy_nonce hello_world 0.

Definition retried_proof : Proof Z Z :=
  Eval vm_compute in
    match fst retried_run with
    | Returned p => p
    | _ => empty_proof (L := toy (zero_at_hash 4))
    end.

Definition retried_state : ProveState Z Z :=
  Eval vm_compute in snd retried_run.

(** Two proofs with one value commitment and 6, respectively 12, rounds. *)
Definition toy_proof_of_rounds (k : nat) : Proof Z Z :=
  mkProof [1%Z] (repeat 1%Z k) (repeat 1%Z k) 0%Z 0%Z 0%Z 0%Z 0%Z 0%Z 0%Z 0%Z 0%Z 0%Z.


(** * Further parts of range_proof.cpp *)

(** [VerifyLoop1Result]: the three members [VerifyLoop1] updates. *)
Record VerifyLoop1Result (D : Type) : Type := mkLoop1 {
  max_num_rounds : nat;
  Vs_size_sum : N;
  proof_derivs : list D
}.

Section VerifyLoops.

Context {L : Arith}.

Local Abbreviation Scalars := (list Scalar).
Local Abbreviation proof_t := (Proof Scalar G1Point).
Local Abbreviation txin_t := (TxInToRecover Scalar G1Point).

(** ** VerifyLoop1 *)

(** [ProofWithDerivedValues] and its [Build] are declared outside
    [range_proof.cpp], and so are the values the two counters of a
    default-constructed [VerifyLoop1Result] start with. *)
Variable ProofWithDerivedValues : Type.
Variable Build : proof_t -> nat -> ProofWithDerivedValues.
Variable initial_max_num_rounds : nat.
Variable initial_Vs_size_sum : N.

(** The body of the loop; [+=] on [size_t] wraps at [2^64]. *)
Definition loop1_step (num_rounds : nat)
           (res : VerifyLoop1Result ProofWithDerivedValues)
           (p : nat * proof_t) : VerifyLoop1Result ProofWithDerivedValues :=
  let proof := snd p in
  let max_num_rounds := Nat.max (max_num_rounds res) (length (p_Ls proof)) in
  let Vs_size_sum :=
    ((Vs_size_sum res + N.of_nat (length (p_Vs proof))) mod 2 ^ 64)%N in
  let proof_deriv := Build proof num_rounds in
  mkLoop1 max_num_rounds Vs_size_sum (proof_derivs res ++ [proof_deriv]).

Definition VerifyLoop1 (indexed_proofs : list (nat * proof_t)) (num_rounds : nat)
  : VerifyLoop1Result ProofWithDerivedValues :=
  fold_left (loop1_step num_rounds) indexed_proofs
            (mkLoop1 initial_max_num_rounds initial_Vs_size_sum []).

(** ** The cache of challenge products in VerifyLoop2 *)

(** [w_cache[i] = v]; an index outside the vector is undefined in
    the source and leaves the list as it is here. *)
Fixpoint write_at (i : nat) (v : Scalar) (w_cache : Scalars) : Scalars :=
  match w_cache, i with
  | [], _ => []
  | _ :: rest, 0 => v :: rest
  | c :: rest, S i' => c :: write_at i' v rest
  end.

(** [for (size_t s = sl; s-- > 0; --s)]: the test reads [s] and
    decrements it, the body runs with the decremented [s], then [s] is
    decremented again.  [None] means that [fuel] tests did not end the loop. *)
Fixpoint w_cache_inner (fuel : nat) (ws inv_ws : Scalars) (j : nat) (s : nat)
         (w_cache : Scalars) {struct fuel} : option Scalars :=
  match fuel with
  | 0 => None
  | S fuel' =>
      if 0 <? s then
        let s := size_t_sub s 1 in
        let w_cache :=
          write_at s (Scalar_mul (Scalars_at w_cache (s / 2)) (Scalars_at ws j))
                   w_cache in
        let w_cache :=
          write_at (size_t_sub s 1)
                   (Scalar_mul (Scalars_at w_cache (s / 2)) (Scalars_at inv_ws j))
                   w_cache in
        let s := size_t_sub s 1 in
        w_cache_inner fuel' ws inv_ws j s w_cache
      else Some w_cache
  end.

(** [for (size_t j = 1; j < p.num_rounds; ++j)], over the values of [j].
    [1 << (j+1)] is a shift of an [int], defined up to [j + 1 = 30]. *)
Fixpoint w_cache_outer (js : list nat) (ws inv_ws : Scalars) (w_cache : Scalars)
  : option Scalars :=
  match js with
  | [] => Some w_cache
  | j :: rest =>
      let sl := 2 ^ (j + 1) in
      match w_cache_inner (S sl) ws inv_ws j sl w_cache with
      | None => None
      | Some w_cache => w_cache_outer rest ws inv_ws w_cache
      end
  end.

(** Lines 414-425: [std::vector<Scalar> w_cache(1 << p.num_rounds, 1)], the
    two assignments and the two loops. *)
Definition build_w_cache (num_rounds : nat) (ws inv_ws : Scalars) : option Scalars :=
  let w_cache := repeat (Scalar_of_Z 1) (2 ^ num_rounds) in
  let w_cache := write_at 0 (Scalars_at inv_ws 0) w_cache in
  let w_cache := write_at 1 (Scalars_at ws 0) w_cache in
  w_cache_outer (seq 1 (num_rounds - 1)) ws inv_ws w_cache.

(** The index [(~i) & (MN-1)] of line 438, on 64-bit [size_t]. *)
Definition complement_index (i MN : Z) : Z :=
  Z.land (Z.lnot i mod 2 ^ 64) ((MN - 1) mod 2 ^ 64).

(** ** Vocabulary of the statements *)

(** The product of challenges that belongs to position [i] after [rounds]
    rounds: the lowest bit of [i] selects [ws] or [inv_ws] of the last round,
    the next bit that of the round before, and so on; the factors are
    multiplied in the order of the rounds. *)
Fixpoint challenge_product (ws inv_ws : Scalars) (rounds : nat) (i : nat) : Scalar :=
  match rounds with
  | 0 => Scalar_of_Z 1
  | S r =>
      let c := if Nat.odd i then Scalars_at ws r else Scalars_at inv_ws r in
      match r with
      | 0 => c
      | S _ => Scalar_mul (challenge_product ws inv_ws r (i / 2)) c
      end
  end.

(** The shape [ValidateProofsBySizes] asks of a proof. *)
Definition shape_ok (num_rounds : nat) (proof : proof_t) : Prop :=
  1 <= length (p_Vs proof) <= m_max_input_values cfg /\
  length (p_Ls proof) = num_rounds /\
  length (p_Rs proof) = num_rounds.

(** The checks of [RecoverTxIns] as a test. *)
Definition recoverable (gens : Generators G1Point) (tx_in : txin_t) : bool :=
  negb (length (in_Vs tx_in) =? 0)
  && (0 <? length (in_Ls tx_in))
  && (length (in_Ls tx_in) =? length (in_Rs tx_in))
  && G1Point_eqb (input_value0_commitment_of gens tx_in)
                 (G1Points_at (in_Vs tx_in) 0).

(** An input with other [Ls], [Rs] and other commitments after the first. *)
Definition with_other_rounds (tx_in : txin_t) (Ls Rs Vs_rest : list G1Point)
  : txin_t :=
  mkTxIn (in_index tx_in) (G1Points_at (in_Vs tx_in) 0 :: Vs_rest) Ls Rs
         (in_mu tx_in) (in_tau_x tx_in) (in_x tx_in) (in_z tx_in)
         (in_nonce tx_in).

(** A list is all zero bytes. *)
Definition all_zero (vch : list byte) : Prop := Forall (fun c => c = x00) vch.

(** What an attempt does to the transcript. *)
Definition attempt_extends (st : ProveState Scalar G1Point) (a : Attempt Scalar G1Point) : Prop :=
  match a with
  | TryAgain st' =>
      exists ext, transcript st' = transcript st ++ ext /\ 3 <= length ext
  | Finished _ st' => exists ext, transcript st' = transcript st ++ ext
  end.

End VerifyLoops.

(** Inputs for the runs of these parts on the concrete collaborators. *)

(** An input whose first commitment is the one [RecoverTxIns] recomputes. *)
Definition toy_recoverable_tx_in : TxInToRecover Z Z :=
  Eval vm_compute in
    let base :=
      mkTxIn 7 [0%Z] [1%Z] [1%Z] 1111%Z 2222%Z 3333%Z 4444%Z toy_nonce in
    mkTxIn 7
           [input_value0_commitment_of (L := toy mixing_hash) (toy_generators 0) base;
            9%Z]
           [1%Z] [1%Z] 1111%Z 2222%Z 3333%Z 4444%Z toy_nonce.

(** A batch of two proofs with 12 rounds each, and a stand-in for [Build]. *)
Definition toy_batch : list (nat * Proof Z Z) :=
  [(0, toy_proof_of_rounds 12); (1, toy_proof_of_rounds 12)].

Definition toy_Build (proof : Proof Z Z) (num_rounds : nat) : nat :=
  length (p_Ls proof) + num_rounds.

(** Challenges of three rounds and stand-ins for their inverses. *)
Definition toy_ws : list Z := [2%Z; 3%Z; 5%Z].
Definition toy_inv_ws : list Z := [7%Z; 11%Z; 13%Z].

(** * Properties *)

Section RangeProofFacts.

Context {L : Arith}.

Local Abbreviation proof_t := (Proof Scalar G1Point).
Local Abbreviation txin_t := (TxInToRecover Scalar G1Point).
Local Abbreviation ipa_t := (IpaState Scalar G1Point).
Local Abbreviation state_t := (ProveState Scalar G1Point).

(** ** GetTrimmedVch *)

Lemma trim_taking (vch acc : list byte) :
  fold_left trim_step vch (true, acc) = (true, acc ++ vch).
Proof.
  revert acc; induction vch as [|c vch IH]; intros acc; simpl.
  - now rewrite app_nil_r.
  - unfold trim_step at 2; simpl. rewrite IH, <- app_assoc. reflexivity.
Qed.

Lemma trim_skipping (vch : list byte) :
  snd (fold_left trim_step vch (false, [])) = strip_leading_zeros vch.
Proof.
  induction vch as [|c vch IH]; simpl; [reflexivity|].
  unfold trim_step at 2; simpl.
  destruct (Byte.eqb c x00); simpl.
  - exact IH.
  - now rewrite trim_taking.
Qed.

Lemma strip_leading_zeros_head (vch : list byte) :
  hd_error (strip_leading_zeros vch) <> Some x00.
Proof.
  induction vch as [|c vch IH]; simpl; [discriminate|].
  destruct (Byte.eqb c x00) eqn:E; [exact IH|].
  simpl. intros [= ->]. discriminate E.
Qed.

Lemma GetTrimmedVch_spec (s : Scalar) :
  GetTrimmedVch s = strip_leading_zeros (GetVch s).
Proof. apply trim_skipping. Qed.

Lemma GetTrimmedVch_head (s : Scalar) : hd_error (GetTrimmedVch s) <> Some x00.
Proof. rewrite GetTrimmedVch_spec. apply strip_leading_zeros_head. Qed.

(** ** RecoverTxIns *)

Lemma recover_tx_in_Some (gens : Generators G1Point) (tx_in : txin_t)
      (r : RecoveredTxInput Scalar) :
  recover_tx_in gens tx_in = Some r <->
  passes_checks gens tx_in /\ r = recovered_entry tx_in.
Proof.
  unfold recover_tx_in, passes_checks.
  assert (HV : (length (in_Vs tx_in) =? 0) = false <-> in_Vs tx_in <> []).
  { rewrite Nat.eqb_neq. destruct (in_Vs tx_in); simpl; split; congruence. }
  assert (HL : (0 <? length (in_Ls tx_in)) = true <-> in_Ls tx_in <> []).
  { rewrite Nat.ltb_lt. destruct (in_Ls tx_in); simpl; split; try congruence; lia. }
  destruct (length (in_Vs tx_in) =? 0) eqn:EV; cbn [orb].
  { split; [discriminate|]. intros [(H & _) _]. apply HV in H. discriminate. }
  destruct (0 <? length (in_Ls tx_in)) eqn:EL; cbn [andb negb].
  2:{ split; [discriminate|]. intros [(_ & H & _) _]. apply HL in H. discriminate. }
  destruct (length (in_Ls tx_in) =? length (in_Rs tx_in)) eqn:E; cbn [negb].
  2:{ split; [discriminate|]. intros [(_ & _ & H & _) _].
      apply Nat.eqb_neq in E. contradiction. }
  apply Nat.eqb_eq in E.
  destruct (G1Point_eqb (input_value0_commitment_of gens tx_in)
                        (G1Points_at (in_Vs tx_in) 0)) eqn:C; cbn [negb].
  - split.
    + intros [= <-]. split; [|reflexivity].
      repeat split; [now apply HV | now apply HL | exact E].
    + intros [_ ->]. reflexivity.
  - split; [discriminate|]. intros [(_ & _ & _ & H) _]. discriminate.
Qed.

Lemma recover_loop_app (gens : Generators G1Point) (tx_ins : list txin_t)
      (acc : list (RecoveredTxInput Scalar)) :
  recover_loop gens tx_ins acc =
  acc ++ flat_map (fun tx_in => match recover_tx_in gens tx_in with
                                | Some r => [r]
                                | None => []
                                end) tx_ins.
Proof.
  revert acc; induction tx_ins as [|tx rest IH]; intros acc; simpl.
  - now rewrite app_nil_r.
  - destruct (recover_tx_in gens tx); rewrite IH; [now rewrite <- app_assoc | reflexivity].
Qed.

Lemma RecoverTxIns_In (tx_ins : list txin_t) (token_id : TokenId)
      (r : RecoveredTxInput Scalar) :
  In r (RecoverTxIns tx_ins token_id) <->
  exists tx_in, In tx_in tx_ins /\ passes_checks (GetInstance token_id) tx_in
                /\ r = recovered_entry tx_in.
Proof.
  unfold RecoverTxIns. rewrite recover_loop_app. simpl. rewrite in_flat_map.
  split.
  - intros (tx & Hin & Hr). exists tx. split; [exact Hin|].
    apply recover_tx_in_Some.
    destruct (recover_tx_in _ tx); simpl in Hr; [|contradiction].
    destruct Hr as [->|[]]. reflexivity.
  - intros (tx & Hin & Hp & ->). exists tx. split; [exact Hin|].
    assert (H : recover_tx_in (GetInstance token_id) tx = Some (recovered_entry tx))
      by (apply recover_tx_in_Some; auto).
    rewrite H. now left.
Qed.

Lemma RecoverTxIns_length (tx_ins : list txin_t) (token_id : TokenId) :
  length (RecoverTxIns tx_ins token_id) <= length tx_ins.
Proof.
  unfold RecoverTxIns. rewrite recover_loop_app. simpl.
  induction tx_ins as [|tx rest IH]; simpl; [lia|].
  rewrite length_app. destruct (recover_tx_in _ tx); simpl; lia.
Qed.

Lemma RecoverTxIns_app (before after : list txin_t) (token_id : TokenId) :
  RecoverTxIns (before ++ after) token_id =
  RecoverTxIns before token_id ++ RecoverTxIns after token_id.
Proof.
  unfold RecoverTxIns. rewrite !recover_loop_app. simpl. apply flat_map_app.
Qed.

Lemma recover_tx_in_skips (gens : Generators G1Point) (tx_in : txin_t) :
  in_Vs tx_in = [] \/ length (in_Ls tx_in) = 0 \/
  length (in_Ls tx_in) <> length (in_Rs tx_in) \/
  G1Point_eqb (input_value0_commitment_of gens tx_in)
              (G1Points_at (in_Vs tx_in) 0) = false ->
  recover_tx_in gens tx_in = None.
Proof.
  intros Hbad.
  destruct (recover_tx_in gens tx_in) as [r|] eqn:E; [|reflexivity].
  apply recover_tx_in_Some in E. destruct E as [(HV & HL & HR & HC) _].
  destruct Hbad as [H|[H|[H|H]]].
  - contradiction.
  - destruct (in_Ls tx_in); [now elim HL | discriminate].
  - contradiction.
  - congruence.
Qed.

(** C7. [RecoverTxIns] is a total function of its input list; its result
    holds exactly the entries of the inputs that pass the size checks and
    the commitment check, so it is no longer than the input list, and an input
    whose [Vs] is empty, whose [Ls] is empty, whose [Ls] and [Rs] differ in
    length, or whose recomputed commitment differs from [Vs[0]] contributes
    nothing: the result is the same as without that input. *)
Theorem RecoverTxIns_omits_unrecoverable_inputs
        (tx_ins : list txin_t) (token_id : TokenId) :
  let gens := GetInstance token_id in
  length (RecoverTxIns tx_ins token_id) <= length tx_ins /\
  (forall r, In r (RecoverTxIns tx_ins token_id) <->
             exists tx_in, In tx_in tx_ins /\ passes_checks gens tx_in
                           /\ r = recovered_entry tx_in) /\
  (forall tx_in,
      in_Vs tx_in = [] \/ length (in_Ls tx_in) = 0 \/
      length (in_Ls tx_in) <> length (in_Rs tx_in) \/
      G1Point_eqb (input_value0_commitment_of gens tx_in)
                  (G1Points_at (in_Vs tx_in) 0) = false ->
      RecoverTxIns [tx_in] token_id = [] /\
      forall before after,
        RecoverTxIns (before ++ tx_in :: after) token_id =
        RecoverTxIns (before ++ after) token_id).
Proof.
  intros gens. split; [apply RecoverTxIns_length|].
  split; [intros r; apply RecoverTxIns_In|].
  intros tx_in Hbad.
  assert (E : RecoverTxIns [tx_in] token_id = []).
  { unfold RecoverTxIns; simpl.
    now rewrite (recover_tx_in_skips (GetInstance token_id) tx_in Hbad). }
  split; [exact E|].
  intros before after.
  change (tx_in :: after) with ([tx_in] ++ after).
  now rewrite !RecoverTxIns_app, E.
Qed.

(** C10. [GetTrimmedVch s] is the serialization of [s] without its leading
    zero bytes, so it never begins with 0x00.  Every message returned by
    [RecoverTxIns] is the concatenation of two such chunks, the first made
    from [message_v0 >> 64] and the second from the scalar solved out of the
    [tau_x] equation.  Hence a byte string that begins with 0x00 is never
    returned as a message, and neither is one whose byte 24 is 0x00 when
    the first chunk holds the 23 bytes before it. *)
Theorem recovered_chunks_have_no_leading_zero :
  (forall s, GetTrimmedVch s = strip_leading_zeros (GetVch s)) /\
  (forall s, hd_error (GetTrimmedVch s) <> Some x00) /\
  (forall tx_ins token_id r,
      In r (RecoverTxIns tx_ins token_id) ->
      exists tx_in,
        In tx_in tx_ins /\
        let msg1 := GetTrimmedVch (Scalar_shr (message_v0_of tx_in) 64) in
        let msg2 := GetTrimmedVch (msg2_scalar_of tx_in) in
        out_message r = msg1 ++ msg2 /\
        hd_error msg1 <> Some x00 /\ hd_error msg2 <> Some x00 /\
        (forall original, hd_error original = Some x00 ->
                          out_message r <> original) /\
        (forall original, length msg1 = 23 ->
                          nth_error original 23 = Some x00 ->
                          out_message r <> original)).
Proof.
  split; [exact GetTrimmedVch_spec|].
  split; [exact GetTrimmedVch_head|].
  intros tx_ins token_id r Hin.
  apply RecoverTxIns_In in Hin. destruct Hin as (tx & Hin & _ & ->).
  exists tx. split; [exact Hin|]. cbv zeta. unfold recovered_entry; cbn [out_message].
  pose proof (GetTrimmedVch_head (Scalar_shr (message_v0_of tx) 64)) as H1.
  pose proof (GetTrimmedVch_head (msg2_scalar_of tx)) as H2.
  split; [reflexivity|]. split; [exact H1|]. split; [exact H2|].
  split.
  - intros original Ho E. rewrite <- E in Ho.
    destruct (GetTrimmedVch (Scalar_shr (message_v0_of tx) 64)); simpl in Ho.
    + contradiction.
    + contradiction.
  - intros original Hlen Ho E. rewrite <- E in Ho.
    rewrite nth_error_app2 in Ho by lia.
    rewrite Hlen, Nat.sub_diag in Ho.
    destruct (GetTrimmedVch (msg2_scalar_of tx)); simpl in Ho; [discriminate|].
    simpl in H2. contradiction.
Qed.

(** ** Rounds expected by Verify *)

Lemma log2_GetFirstPowerOf2GreaterOrEqTo (n : nat) :
  Nat.log2 (GetFirstPowerOf2GreaterOrEqTo n) = Nat.log2_up n.
Proof. unfold GetFirstPowerOf2GreaterOrEqTo. apply Nat.log2_pow2. lia. Qed.

Lemma GetInnerProdArgRounds_one : GetInnerProdArgRounds 1 = Nat.log2 bits.
Proof.
  unfold GetInnerProdArgRounds. now rewrite log2_GetFirstPowerOf2GreaterOrEqTo.
Qed.

Lemma GetInnerProdArgRounds_bits :
  2 <= bits -> Nat.log2 bits < GetInnerProdArgRounds bits.
Proof.
  intros H. unfold GetInnerProdArgRounds.
  rewrite log2_GetFirstPowerOf2GreaterOrEqTo.
  pose proof (Nat.log2_up_pos bits). lia.
Qed.

Lemma ValidateProofsBySizes_single (idx : nat) (p : proof_t) (num_rounds : nat) :
  ValidateProofsBySizes [(idx, p)] num_rounds =
  negb (length (p_Vs p) =? 0)
  && negb (m_max_input_values cfg <? length (p_Vs p))
  && (length (p_Ls p) =? num_rounds)
  && (length (p_Ls p) =? length (p_Rs p)).
Proof.
  simpl.
  destruct (length (p_Vs p) =? 0); [reflexivity|].
  destruct (m_max_input_values cfg <? length (p_Vs p)); [reflexivity|].
  destruct (length (p_Ls p) =? num_rounds); [|reflexivity].
  destruct (length (p_Ls p) =? length (p_Rs p)); reflexivity.
Qed.

(** C3, evaluation of the code.  [Verify] compares [len(Ls)] of every proof
    with the single number [GetInnerProdArgRounds(Config::m_input_value_bits)],
    whatever the proof's value count.  For a proof with one value commitment
    and equally long [Ls], [Rs]: with the number of rounds specified for its
    value count, [GetInnerProdArgRounds (len Vs)], it is rejected; with
    [GetInnerProdArgRounds bits] rounds, which is not the number specified
    for one value, it passes the shape validation and the answer of [Verify]
    is that of the aggregation stage. *)
Theorem Verify_expected_rounds_ignore_value_count
        (idx : nat) (p : proof_t) (token_id : TokenId) :
  2 <= bits ->
  1 <= m_max_input_values cfg ->
  length (p_Vs p) = 1 ->
  length (p_Rs p) = length (p_Ls p) ->
  (length (p_Ls p) = GetInnerProdArgRounds (length (p_Vs p)) ->
   Verify [(idx, p)] token_id = false) /\
  (length (p_Ls p) = GetInnerProdArgRounds bits ->
   length (p_Ls p) <> GetInnerProdArgRounds (length (p_Vs p)) /\
   ValidateProofsBySizes [(idx, p)] (GetInnerProdArgRounds bits) = true /\
   Verify [(idx, p)] token_id =
   AggregateCheck [(idx, p)] (GetInnerProdArgRounds bits) token_id).
Proof.
  intros Hbits Hmax HV HR.
  pose proof (GetInnerProdArgRounds_bits Hbits) as Hlt.
  unfold Verify. fold bits. rewrite ValidateProofsBySizes_single.
  rewrite HV, HR, GetInnerProdArgRounds_one.
  split; intros HL.
  - replace (length (p_Ls p) =? GetInnerProdArgRounds bits) with false.
    + now rewrite andb_false_r.
    + symmetry. apply Nat.eqb_neq. lia.
  - split; [lia|].
    rewrite !Nat.eqb_refl. simpl.
    replace (m_max_input_values cfg <? 1) with false
      by (symmetry; apply Nat.ltb_ge; lia).
    simpl. rewrite HL, Nat.eqb_refl. simpl. split; reflexivity.
Qed.

(** ** The bit vector aL *)

Lemma size_t_sub_le (x y : nat) :
  y <= x -> (N.of_nat x < 2 ^ 64)%N -> size_t_sub x y = x - y.
Proof.
  intros Hle Hx. unfold size_t_sub.
  assert (Hy : (N.of_nat y < 2 ^ 64)%N) by lia.
  rewrite (N.mod_small (N.of_nat y)) by exact Hy.
  replace (N.of_nat x + 2 ^ 64 - N.of_nat y)%N
    with (N.of_nat (x - y) + 1 * 2 ^ 64)%N by lia.
  rewrite N.Div0.mod_add, N.mod_small by lia.
  apply Nat2N.id.
Qed.

Lemma value_bits_length (v : Scalar) :
  length (GetBits v) <= bits -> (N.of_nat bits < 2 ^ 64)%N ->
  length (value_bits v) = bits.
Proof.
  intros Hle Hb. unfold value_bits.
  rewrite length_app, length_map, repeat_length, size_t_sub_le by assumption.
  lia.
Qed.

Lemma flatten_aL_length (vs : list Scalar) :
  (N.of_nat bits < 2 ^ 64)%N ->
  Forall (fun v => length (GetBits v) <= bits) vs ->
  length (flatten_aL vs) = length vs * bits.
Proof.
  intros Hb Hall. unfold flatten_aL.
  induction Hall as [|v vs Hv _ IH]; simpl; [reflexivity|].
  rewrite length_app, IH, value_bits_length by assumption. reflexivity.
Qed.

(** C8, evaluation of the code.  [aL] holds [bits] entries for every
    supplied value and nothing for the padding values: for three values of
    at most [bits] binary digits it has [3 * bits] entries, while the
    rounded value count times the bit width is [4 * bits]. *)
Theorem flatten_aL_not_padded_to_power_of_two (vs : list Scalar) :
  0 < bits ->
  (N.of_nat bits < 2 ^ 64)%N ->
  Forall (fun v => length (GetBits v) <= bits) vs ->
  length vs = 3 ->
  length (flatten_aL vs) = 3 * bits /\
  GetFirstPowerOf2GreaterOrEqTo (length vs) * bits = 4 * bits /\
  length (flatten_aL vs) <> GetFirstPowerOf2GreaterOrEqTo (length vs) * bits.
Proof.
  intros Hpos Hb Hall Hlen.
  rewrite flatten_aL_length, Hlen by assumption.
  change (GetFirstPowerOf2GreaterOrEqTo 3) with 4.
  repeat split; lia.
Qed.

(** ** InnerProductArgument: termination and the growth of Ls and Rs *)

Lemma log2_halve (n : nat) : 2 <= n -> Nat.log2 n = S (Nat.log2 (n / 2)).
Proof.
  intros Hn.
  assert (Hh : 0 < n / 2) by (apply Nat.div_str_pos; lia).
  destruct (Nat.log2_spec (n / 2) Hh) as [Hlo Hhi].
  pose proof (Nat.div_mod_eq n 2) as Hdm.
  pose proof (Nat.mod_upper_bound n 2 ltac:(lia)) as Hm.
  apply Nat.log2_unique; [lia|].
  rewrite !Nat.pow_succ_r' in *. lia.
Qed.

Lemma ipa_round_inl (gens : Generators G1Point) (x_ip : Scalar)
      (sf : list Scalar) (s s' : ipa_t) :
  ipa_round gens x_ip sf s = inl s' ->
  n_prime s' = n_prime s / 2 /\ same_but_rounds (ipa_proof s) (ipa_proof s') 1.
Proof.
  unfold ipa_round. cbv zeta.
  destruct (is_zero _); [discriminate|].
  intros [= <-]. unfold same_but_rounds; simpl.
  rewrite !length_app; simpl. repeat split; reflexivity.
Qed.

Lemma ipa_round_inr (gens : Generators G1Point) (x_ip : Scalar)
      (sf : list Scalar) (s : ipa_t) (p : proof_t)
      (tr : list (Entry Scalar G1Point)) :
  ipa_round gens x_ip sf s = inr (p, tr) ->
  same_but_rounds (ipa_proof s) p 1.
Proof.
  unfold ipa_round. cbv zeta.
  destruct (is_zero _); [|discriminate].
  intros [= <- _]. unfold same_but_rounds; simpl.
  rewrite !length_app; simpl. repeat split; reflexivity.
Qed.

Lemma ipa_loop_fuel_enough (fuel : nat) (gens : Generators G1Point)
      (x_ip : Scalar) (sf : list Scalar) (s : ipa_t) :
  n_prime s <= fuel -> ipa_loop fuel gens x_ip sf s <> None.
Proof.
  revert s; induction fuel as [|fuel IH]; intros s Hn; simpl.
  - replace (n_prime s <=? 1) with true by (symmetry; apply Nat.leb_le; lia).
    discriminate.
  - destruct (n_prime s <=? 1) eqn:E; [discriminate|].
    apply Nat.leb_gt in E.
    destruct (ipa_round gens x_ip sf s) as [s'|[p tr]] eqn:R; [|discriminate].
    apply IH. apply ipa_round_inl in R. destruct R as [-> _].
    pose proof (Nat.div_mod_eq (n_prime s) 2). lia.
Qed.

Lemma ipa_loop_rounds (fuel : nat) (gens : Generators G1Point)
      (x_ip : Scalar) (sf : list Scalar) (s : ipa_t) (ok : bool)
      (p : proof_t) (tr : list (Entry Scalar G1Point)) :
  ipa_loop fuel gens x_ip sf s = Some (ok, p, tr) ->
  exists k, same_but_rounds (ipa_proof s) p k /\
            (ok = true -> k = Nat.log2 (n_prime s)) /\
            (ok = false -> 1 <= k <= Nat.log2 (n_prime s)).
Proof.
  revert s; induction fuel as [|fuel IH]; intros s; simpl.
  - destruct (n_prime s <=? 1) eqn:E; [|discriminate].
    apply Nat.leb_le in E. intros [= <- <- _].
    exists 0. unfold same_but_rounds; simpl. rewrite !Nat.add_0_r.
    split; [auto|]. split; [|discriminate].
    intros _. destruct (n_prime s) as [|[|n]]; [reflexivity|reflexivity|lia].
  - destruct (n_prime s <=? 1) eqn:E.
    + apply Nat.leb_le in E. intros [= <- <- _].
      exists 0. unfold same_but_rounds; simpl. rewrite !Nat.add_0_r.
      split; [auto|]. split; [|discriminate].
      intros _. destruct (n_prime s) as [|[|n]]; [reflexivity|reflexivity|lia].
    + apply Nat.leb_gt in E.
      rewrite (log2_halve E).
      destruct (ipa_round gens x_ip sf s) as [s'|[p' tr']] eqn:R.
      * intros Hloop. apply ipa_round_inl in R. destruct R as [Hn (V1 & T1 & L1 & R1)].
        apply IH in Hloop. destruct Hloop as (k & (V2 & T2 & L2 & R2) & Hok & Hko).
        rewrite Hn in Hok, Hko.
        exists (S k). split; [|split].
        -- unfold same_but_rounds. rewrite V2, T2, L2, R2, V1, T1, L1, R1.
           repeat split; lia.
        -- intros Ht. specialize (Hok Ht). lia.
        -- intros Hf. specialize (Hko Hf). lia.
      * intros [= <- <- <-]. apply ipa_round_inr in R.
        exists 1. split; [exact R|]. split; [discriminate|]. intros _. lia.
Qed.

Lemma InnerProductArgument_returns (n : nat) (gens : Generators G1Point)
      (x_ip : Scalar) (l r : list Scalar) (y : Scalar) (p0 : proof_t)
      (tr0 : list (Entry Scalar G1Point)) :
  exists ok p tr,
    InnerProductArgument n gens x_ip l r y p0 tr0 = Some (ok, p, tr) /\
    exists k, same_but_rounds p0 p k /\
              (ok = true -> k = Nat.log2 n) /\
              (ok = false -> 1 <= k <= Nat.log2 n).
Proof.
  unfold InnerProductArgument. cbv zeta.
  match goal with |- context [ipa_loop ?f ?g ?x ?sf ?s] =>
    destruct (ipa_loop f g x sf s) as [[[ok p] tr]|] eqn:E;
    [|exfalso; revert E; apply ipa_loop_fuel_enough; simpl; lia]
  end.
  exists ok, p, tr. split; [reflexivity|].
  apply ipa_loop_rounds in E. exact E.
Qed.

(** ** One attempt of Prove *)

Lemma same_but_rounds_refl (p p' : proof_t) :
  p_Vs p' = p_Vs p -> p_t p' = p_t p -> p_Ls p' = p_Ls p -> p_Rs p' = p_Rs p ->
  same_but_rounds p p' 0.
Proof.
  intros HV HT HL HR. unfold same_but_rounds.
  rewrite HV, HT, HL, HR, !Nat.add_0_r. auto.
Qed.

Lemma same_but_rounds_trans (p p' p'' : proof_t) (j k : nat) :
  same_but_rounds p p' j -> same_but_rounds p' p'' k ->
  same_but_rounds p p'' (j + k).
Proof.
  intros (V1 & T1 & L1 & R1) (V2 & T2 & L2 & R2). unfold same_but_rounds.
  rewrite V2, T2, L2, R2, V1, T1, L1, R1. repeat split; lia.
Qed.

(** Name the next local of the body instead of substituting it. *)
Ltac name_local :=
  lazymatch goal with
  | |- ?P (let a := ?v in @?b a) =>
      let a' := fresh a in
      pose (a' := v); change (P (b a')); cbv beta
  end.

Ltac name_locals := repeat name_local.

Lemma prove_attempt_spec (vs : list Scalar) (nonce : G1Point)
      (message : list byte) (gens : Generators G1Point)
      (gammas aL aR : list Scalar) (concat : nat) (st : state_t) :
  attempt_ok concat st
             (prove_attempt vs nonce message gens gammas aL aR concat st).
Proof.
  cbv beta delta [prove_attempt].
  name_locals.
  destruct (m_max_prove_tries cfg <? num_tries0) eqn:Emax.
  { apply Nat.ltb_lt in Emax. simpl. split; [reflexivity|]. left. auto. }
  apply Nat.ltb_ge in Emax.
  assert (Hzero : forall q, p_Vs q = p_Vs (proof st) -> p_t q = p_t (proof st) ->
                            p_Ls q = p_Ls (proof st) -> p_Rs q = p_Rs (proof st) ->
                            exists k, same_but_rounds (proof st) q k
                                      /\ k <= Nat.log2 concat).
  { intros q HV HT HL HR. exists 0. split; [now apply same_but_rounds_refl | lia]. }
  name_locals.
  destruct (is_zero y).
  { simpl. split; [reflexivity|]. split; [exact Emax|]. now apply Hzero. }
  name_locals.
  destruct (is_zero z).
  { simpl. split; [reflexivity|]. split; [exact Emax|]. now apply Hzero. }
  name_locals.
  destruct (is_zero x).
  { simpl. split; [reflexivity|]. split; [exact Emax|]. now apply Hzero. }
  name_locals.
  destruct (negb _).
  { simpl. split; [reflexivity|]. right. auto. }
  name_locals.
  destruct (is_zero x_ip).
  { simpl. split; [reflexivity|]. split; [exact Emax|]. now apply Hzero. }
  match goal with |- context [InnerProductArgument ?n ?g ?x ?l ?r ?y ?p0 ?tr0] =>
    destruct (InnerProductArgument_returns n g x l r y p0 tr0)
      as (ok & p & tr & -> & k & Hsame & Htrue & Hfalse);
    assert (Hbase : same_but_rounds (proof st) p0 0)
      by (now apply same_but_rounds_refl)
  end.
  pose proof (same_but_rounds_trans Hbase Hsame) as Hall. simpl in Hall.
  destruct ok; simpl.
  - rewrite Htrue in Hall by reflexivity. auto.
  - split; [reflexivity|]. split; [exact Emax|].
    exists k. split; [exact Hall|]. specialize (Hfalse eq_refl). lia.
Qed.

(** ** The retry loop *)

Lemma try_again_spec (vs : list Scalar) (nonce : G1Point)
      (message : list byte) (gens : Generators G1Point)
      (gammas aL aR : list Scalar) (concat : nat)
      (fuel : nat) (st : state_t) :
  num_tries st <= m_max_prove_tries cfg ->
  m_max_prove_tries cfg < num_tries st + fuel ->
  run_ok concat st
         (try_again fuel (prove_attempt vs nonce message gens gammas aL aR concat) st).
Proof.
  revert st; induction fuel as [|fuel IH]; intros st Hle Hfuel; [lia|].
  simpl.
  pose proof (prove_attempt_spec vs nonce message gens gammas aL aR concat st) as Ha.
  destruct (prove_attempt vs nonce message gens gammas aL aR concat st)
    as [st1|o st1]; simpl in Ha.
  - destruct Ha as (Hn & Hmax & k1 & Hsame1 & Hk1).
    specialize (IH st1 ltac:(lia) ltac:(lia)).
    destruct (try_again fuel _ st1) as [o st2]. simpl in *.
    destruct IH as (Hfuel' & Htries & Herr & Hret).
    split; [exact Hfuel'|]. split; [|split; [exact Herr|]].
    + destruct Htries as [H|H]; [left; exact H | right; intuition lia].
    + intros p Hp. destruct (Hret p Hp) as (Hpr & k2 & Hsame2 & Hk2 & _).
      split; [exact Hpr|]. exists (k1 + k2).
      split; [now apply (same_but_rounds_trans Hsame1)|].
      split; [lia|]. intros Hone. exfalso.
      destruct Htries as [[He _]|(_ & Hlt & _)]; [congruence | lia].
  - destruct o as [p|e|]; simpl.
    + destruct Ha as (Hn & Hmax & Hpr & Hsame).
      split; [discriminate|]. split; [right; repeat split; [discriminate|lia|lia]|].
      split; [discriminate|].
      intros p' [= <-]. split; [exact Hpr|].
      exists (Nat.log2 concat). auto.
    + destruct Ha as (Hn & [(-> & Hmax & _)|(-> & Hmax)]).
      * split; [discriminate|]. split; [left; split; [reflexivity|lia]|].
        split; [intros e [= <-]; reflexivity | discriminate].
      * split; [discriminate|].
        split; [right; repeat split; [discriminate|lia|lia]|].
        split; [intros e [= <-]; reflexivity | discriminate].
    + contradiction.
Qed.

Lemma prove_attempt_exceeded (vs : list Scalar) (nonce : G1Point)
      (message : list byte) (gens : Generators G1Point)
      (gammas aL aR : list Scalar) (concat : nat) (st : state_t) :
  m_max_prove_tries cfg < S (num_tries st) ->
  prove_attempt vs nonce message gens gammas aL aR concat st =
  Finished (Thrown ExceededMaxTries)
           (mkProveState (transcript st) (proof st) (S (num_tries st)) (draws st)).
Proof.
  intros Hmax. apply Nat.ltb_lt in Hmax.
  match goal with |- ?lhs = ?rhs => set (P := fun a => a = rhs); change (P lhs) end.
  cbv beta delta [prove_attempt]. name_local. subst num_tries0.
  rewrite Hmax. reflexivity.
Qed.

Lemma count_hashes_app (log log' : list (Entry Scalar G1Point)) :
  count_hashes (log ++ log') = count_hashes log + count_hashes log'.
Proof. unfold count_hashes. now rewrite filter_app, length_app. Qed.

Lemma count_hashes_point (log : list (Entry Scalar G1Point)) (p : G1Point) :
  count_hashes (log ++ [WritePoint p]) = count_hashes log.
Proof. rewrite count_hashes_app. unfold count_hashes at 2. simpl. lia. Qed.

Lemma count_hashes_taken (log : list (Entry Scalar G1Point)) :
  count_hashes (log ++ [HashTaken]) = S (count_hashes log).
Proof. rewrite count_hashes_app. unfold count_hashes at 2. simpl. lia. Qed.

(** With every challenge zero an attempt stops at [y]. *)
Lemma prove_attempt_all_zero (vs : list Scalar) (nonce : G1Point)
      (message : list byte) (gens : Generators G1Point)
      (gammas aL aR : list Scalar) (concat : nat) (st : state_t) :
  (forall log, is_zero (GetHash log) = true) ->
  S (num_tries st) <= m_max_prove_tries cfg ->
  exists st',
    prove_attempt vs nonce message gens gammas aL aR concat st = TryAgain st' /\
    num_tries st' = S (num_tries st) /\
    count_hashes (transcript st') = S (count_hashes (transcript st)).
Proof.
  intros Hzero Hmax. apply Nat.ltb_ge in Hmax.
  set (P := fun a => exists st',
                a = TryAgain st' /\
                num_tries st' = S (num_tries st) /\
                count_hashes (transcript st') = S (count_hashes (transcript st))).
  change (P (prove_attempt vs nonce message gens gammas aL aR concat st)).
  cbv beta delta [prove_attempt]. name_local.
  replace (m_max_prove_tries cfg <? num_tries0) with false
    by (symmetry; exact Hmax).
  name_locals. subst y. rewrite Hzero.
  eexists. split; [reflexivity|]. simpl. split; [reflexivity|].
  subst transcript2 transcript1 transcript0.
  now rewrite count_hashes_taken, !count_hashes_point.
Qed.

Lemma try_again_all_zero (vs : list Scalar) (nonce : G1Point)
      (message : list byte) (gens : Generators G1Point)
      (gammas aL aR : list Scalar) (concat : nat)
      (fuel : nat) (st : state_t) :
  (forall log, is_zero (GetHash log) = true) ->
  num_tries st <= m_max_prove_tries cfg ->
  num_tries st + fuel = S (m_max_prove_tries cfg) ->
  exists st',
    try_again fuel (prove_attempt vs nonce message gens gammas aL aR concat) st
    = (Thrown ExceededMaxTries, st') /\
    num_tries st' = S (m_max_prove_tries cfg) /\
    count_hashes (transcript st') =
    count_hashes (transcript st) + (m_max_prove_tries cfg - num_tries st).
Proof.
  intros Hzero.
  revert st; induction fuel as [|fuel IH]; intros st Hle Hsum; [lia|].
  simpl. destruct (Nat.eq_dec (num_tries st) (m_max_prove_tries cfg)) as [E|E].
  - rewrite prove_attempt_exceeded by lia.
    eexists. split; [reflexivity|]. simpl. split; [lia|]. lia.
  - destruct (prove_attempt_all_zero vs nonce message gens gammas aL aR concat st
                                     Hzero ltac:(lia)) as (st1 & -> & Hn & Hc).
    destruct (IH st1 ltac:(lia) ltac:(lia)) as (st' & Hrun & Hn' & Hc').
    exists st'. split; [exact Hrun|]. split; [exact Hn'|]. lia.
Qed.

(** ** Prove *)

Lemma arguments_rejected_dec (vs : list Scalar) (message : list byte) :
  (arguments_rejected vs message /\
   ((m_max_message_size cfg <? length message)
    || (length vs =? 0) || (m_max_input_values cfg <? length vs)) = true) \/
  (length message <= m_max_message_size cfg /\
   1 <= length vs <= m_max_input_values cfg /\
   (m_max_message_size cfg <? length message) = false /\
   (length vs =? 0) = false /\
   (m_max_input_values cfg <? length vs) = false).
Proof.
  unfold arguments_rejected.
  destruct (m_max_message_size cfg <? length message) eqn:E1.
  { apply Nat.ltb_lt in E1. left. auto. }
  destruct (length vs =? 0) eqn:E2.
  { apply Nat.eqb_eq in E2. left. split; [|reflexivity].
    right; left. now destruct vs. }
  destruct (m_max_input_values cfg <? length vs) eqn:E3.
  { apply Nat.ltb_lt in E3. left. auto. }
  apply Nat.ltb_ge in E1, E3. apply Nat.eqb_neq in E2.
  right. repeat split; auto; lia.
Qed.

Lemma Prove_trace_rejected (vs : list Scalar) (nonce : G1Point)
      (message : list byte) (token_id : TokenId) :
  arguments_rejected vs message ->
  exists e, is_precondition_error e = true /\
            Prove_trace vs nonce message token_id = (Thrown e, initial_state).
Proof.
  intros Hrej. unfold Prove_trace.
  destruct (m_max_message_size cfg <? length message) eqn:E1.
  { exists MessageTooLarge. auto. }
  destruct (length vs =? 0) eqn:E2.
  { exists ValueVectorEmpty. auto. }
  destruct (m_max_input_values cfg <? length vs) eqn:E3.
  { exists TooManyInputValues. auto. }
  exfalso. apply Nat.ltb_ge in E1, E3. apply Nat.eqb_neq in E2.
  destruct Hrej as [H|[H|H]]; [lia | subst vs; now elim E2 | lia].
Qed.

Lemma Prove_trace_accepted (vs : list Scalar) (nonce : G1Point)
      (message : list byte) (token_id : TokenId) :
  length message <= m_max_message_size cfg ->
  1 <= length vs <= m_max_input_values cfg ->
  exists gens gammas aL aR,
    Prove_trace vs nonce message token_id =
    try_again (S (m_max_prove_tries cfg))
              (prove_attempt vs nonce message gens gammas aL aR
                 (GetFirstPowerOf2GreaterOrEqTo (length vs) * bits))
              (first_state vs nonce token_id).
Proof.
  intros Hm Hv. unfold Prove_trace.
  replace (m_max_message_size cfg <? length message) with false
    by (symmetry; apply Nat.ltb_ge; lia).
  replace (length vs =? 0) with false by (symmetry; apply Nat.eqb_neq; lia).
  replace (m_max_input_values cfg <? length vs) with false
    by (symmetry; apply Nat.ltb_ge; lia).
  do 4 eexists. reflexivity.
Qed.

Lemma Prove_trace_run_ok (vs : list Scalar) (nonce : G1Point)
      (message : list byte) (token_id : TokenId) :
  length message <= m_max_message_size cfg ->
  1 <= length vs <= m_max_input_values cfg ->
  run_ok (GetFirstPowerOf2GreaterOrEqTo (length vs) * bits)
         (first_state vs nonce token_id)
         (Prove_trace vs nonce message token_id).
Proof.
  intros Hm Hv.
  destruct (@Prove_trace_accepted vs nonce message token_id Hm Hv)
    as (gens & gammas & aL & aR & ->).
  apply try_again_spec; simpl; lia.
Qed.

Lemma count_hashes_points (X : Type) (f : X -> G1Point) (l : list X) :
  count_hashes (map (fun i => WritePoint (f i)) l) = 0.
Proof.
  unfold count_hashes. induction l as [|i l IH]; [reflexivity | exact IH].
Qed.

Lemma count_hashes_first_state (vs : list Scalar) (nonce : G1Point)
      (token_id : TokenId) :
  count_hashes (transcript (first_state vs nonce token_id)) = 0.
Proof.
  unfold first_state. cbv zeta. cbn [transcript]. apply count_hashes_points.
Qed.

Lemma Prove_trace_all_zero (vs : list Scalar) (nonce : G1Point)
      (message : list byte) (token_id : TokenId) :
  length message <= m_max_message_size cfg ->
  1 <= length vs <= m_max_input_values cfg ->
  (forall log, is_zero (GetHash log) = true) ->
  exists st,
    Prove_trace vs nonce message token_id = (Thrown ExceededMaxTries, st) /\
    num_tries st = S (m_max_prove_tries cfg) /\
    count_hashes (transcript st) = m_max_prove_tries cfg.
Proof.
  intros Hm Hv Hzero.
  destruct (@Prove_trace_accepted vs nonce message token_id Hm Hv)
    as (gens & gammas & aL & aR & ->).
  match goal with |- context [try_again ?f (prove_attempt ?v ?n ?m ?g ?ga ?l ?r ?c) ?st0] =>
    destruct (try_again_all_zero v n m g ga l r c f st0 Hzero)
      as (st & Hrun & Hn & Hc); [simpl; lia | simpl; lia |]
  end.
  exists st. split; [exact Hrun|]. split; [exact Hn|].
  rewrite Hc, count_hashes_first_state. simpl. lia.
Qed.

(** C6. The retry loop of [Prove] terminates on every input: the run never
    needs more than the [m_max_prove_tries + 1] entries at [try_again] it is
    given, [num_tries] ends at [m_max_prove_tries + 1] when the budget is
    exceeded and at most at [m_max_prove_tries] otherwise.  When the
    arguments are accepted, no value has more binary digits than
    [m_input_value_bits], so that the padding loops before [try_again]
    complete, and every challenge is zero, [Prove] throws
    "exceeded maxinum number of tries" on entry number
    [m_max_prove_tries + 1], after exactly [m_max_prove_tries] attempts, each
    of which derived one challenge. *)
Theorem Prove_retry_bound (vs : list Scalar) (nonce : G1Point)
        (message : list byte) (token_id : TokenId) :
  let res := Prove_trace vs nonce message token_id in
  fst res <> OutOfFuel /\
  ((fst res = Thrown ExceededMaxTries /\
    num_tries (snd res) = S (m_max_prove_tries cfg)) \/
   (fst res <> Thrown ExceededMaxTries /\
    num_tries (snd res) <= m_max_prove_tries cfg)) /\
  (length message <= m_max_message_size cfg ->
   1 <= length vs <= m_max_input_values cfg ->
   Forall (fun v => length (GetBits v) <= bits) vs ->
   (forall log, is_zero (GetHash log) = true) ->
   fst res = Thrown ExceededMaxTries /\
   num_tries (snd res) = S (m_max_prove_tries cfg) /\
   count_hashes (transcript (snd res)) = m_max_prove_tries cfg).
Proof.
  intros res. subst res.
  split; [|split].
  - destruct (arguments_rejected_dec vs message) as [[Hrej _]|(Hm & Hv & _)].
    + destruct (@Prove_trace_rejected vs nonce message token_id Hrej) as (e & _ & ->).
      discriminate.
    + pose proof (@Prove_trace_run_ok vs nonce message token_id Hm Hv) as H.
      destruct (Prove_trace vs nonce message token_id) as [o st].
      simpl in *. tauto.
  - destruct (arguments_rejected_dec vs message) as [[Hrej _]|(Hm & Hv & _)].
    + destruct (@Prove_trace_rejected vs nonce message token_id Hrej) as (e & He & ->).
      right. simpl. split; [|lia]. intros [= ->]. discriminate.
    + pose proof (@Prove_trace_run_ok vs nonce message token_id Hm Hv) as H.
      destruct (Prove_trace vs nonce message token_id) as [o st].
      simpl in *. destruct H as (_ & [H|(H1 & _ & H2)] & _); [left|right]; auto.
  - intros Hm Hv _ Hzero.
    destruct (@Prove_trace_all_zero vs nonce message token_id Hm Hv Hzero)
      as (st & -> & Hn & Hc).
    simpl. auto.
Qed.

(** C5, amended.  [Prove] throws one of its three argument errors exactly
    when the message is longer than [m_max_message_size], or the value vector
    is empty, or it holds more than [m_max_input_values] values; it does so
    before it builds anything: the transcript is empty, the proof is the
    default one, no attempt was started and nothing random was drawn. *)
Theorem Prove_argument_errors (vs : list Scalar) (nonce : G1Point)
        (message : list byte) (token_id : TokenId) :
  (arguments_rejected vs message <->
   exists e, is_precondition_error e = true /\
             Prove vs nonce message token_id = Thrown e) /\
  (arguments_rejected vs message ->
   snd (Prove_trace vs nonce message token_id) = initial_state).
Proof.
  split; [split|].
  - intros Hrej.
    destruct (@Prove_trace_rejected vs nonce message token_id Hrej) as (e & He & Hrun).
    exists e. split; [exact He|]. unfold Prove. now rewrite Hrun.
  - intros (e & He & Hrun).
    destruct (arguments_rejected_dec vs message) as [[Hrej _]|(Hm & Hv & _)];
      [exact Hrej|].
    exfalso.
    pose proof (@Prove_trace_run_ok vs nonce message token_id Hm Hv) as H.
    unfold Prove in Hrun.
    destruct (Prove_trace vs nonce message token_id) as [o st].
    simpl in *. destruct H as (_ & _ & Herr & _).
    rewrite (Herr e Hrun) in He. discriminate.
  - intros Hrej.
    destruct (@Prove_trace_rejected vs nonce message token_id Hrej) as (e & _ & ->).
    reflexivity.
Qed.

(** The shape of a proof that [Prove] returns. *)
Lemma Prove_returned_shape (vs : list Scalar) (nonce : G1Point)
      (message : list byte) (token_id : TokenId) (p : proof_t) (st : state_t) :
  Prove_trace vs nonce message token_id = (Returned p, st) ->
  let concat := GetFirstPowerOf2GreaterOrEqTo (length vs) * bits in
  1 <= length vs <= m_max_input_values cfg /\
  p_Vs p = p_Vs (proof (first_state vs nonce token_id)) /\
  p_t p = Scalar_default /\
  length (p_Ls p) = length (p_Rs p) /\
  Nat.log2 concat <= length (p_Ls p) /\
  (num_tries st = 1 -> length (p_Ls p) = Nat.log2 concat).
Proof.
  intros Hrun concat.
  destruct (arguments_rejected_dec vs message) as [[Hrej _]|(Hm & Hv & _)].
  { destruct (@Prove_trace_rejected vs nonce message token_id Hrej) as (e & _ & He).
    rewrite He in Hrun. discriminate. }
  pose proof (@Prove_trace_run_ok vs nonce message token_id Hm Hv) as H.
  rewrite Hrun in H. unfold run_ok in H.
  destruct H as (_ & _ & _ & Hret).
  destruct (Hret p eq_refl) as (_ & k & (HV & HT & HL & HR) & Hk & Hone).
  change (p_t (proof (first_state vs nonce token_id))) with Scalar_default in HT.
  change (p_Ls (proof (first_state vs nonce token_id)))
    with (@nil G1Point) in HL.
  change (p_Rs (proof (first_state vs nonce token_id)))
    with (@nil G1Point) in HR.
  change (num_tries (first_state vs nonce token_id)) with 0 in Hone.
  simpl length in HL, HR. fold concat in Hk, Hone.
  split; [exact Hv|]. split; [exact HV|]. split; [exact HT|].
  split; [lia|]. split; [lia|].
  intros H1. specialize (Hone H1). lia.
Qed.

Lemma log2_concat (n : nat) :
  1 <= bits ->
  Nat.log2 (GetFirstPowerOf2GreaterOrEqTo n * bits) = Nat.log2_up n + Nat.log2 bits.
Proof.
  intros Hb. unfold GetFirstPowerOf2GreaterOrEqTo.
  rewrite Nat.mul_comm. apply Nat.log2_mul_pow2; lia.
Qed.

(** C1, evaluation of the code.  A proof that [Prove] returns from its first
    attempt has [log2 (round_up_pow2 (len vs)) + log2 bits] rounds, while
    [Verify] asks every proof for the number of rounds computed from
    [Config::m_input_value_bits] in the place of a value count,
    [log2 (round_up_pow2 bits) + log2 bits]: unless the two roundings agree,
    [Verify] returns false on the proof just made. *)
Theorem Verify_rejects_first_attempt_proof
        (vs : list Scalar) (nonce : G1Point) (message : list byte)
        (token_id : TokenId) (p : proof_t) (st : state_t) (idx : nat) :
  Prove_trace vs nonce message token_id = (Returned p, st) ->
  num_tries st = 1 ->
  1 <= bits ->
  Nat.log2_up (length vs) <> Nat.log2_up bits ->
  Verify [(idx, p)] token_id = false.
Proof.
  intros Hrun Hone Hb Hneq.
  destruct (Prove_returned_shape _ _ _ _ Hrun) as (_ & _ & _ & _ & _ & HL).
  specialize (HL Hone). rewrite log2_concat in HL by exact Hb.
  unfold Verify. fold bits. rewrite ValidateProofsBySizes_single.
  replace (length (p_Ls p) =? GetInnerProdArgRounds bits) with false.
  - now rewrite andb_false_r.
  - symmetry. apply Nat.eqb_neq. unfold GetInnerProdArgRounds.
    rewrite log2_GetFirstPowerOf2GreaterOrEqTo. lia.
Qed.

(** ** The transcript of a first attempt that succeeds *)

Lemma same_commitments_refl (p : proof_t) : same_commitments p p.
Proof. unfold same_commitments. repeat split. Qed.

Lemma same_commitments_trans (p p' p'' : proof_t) :
  same_commitments p p' -> same_commitments p' p'' -> same_commitments p p''.
Proof.
  unfold same_commitments. intros H1 H2.
  repeat match goal with H : _ /\ _ |- _ => destruct H end.
  repeat split; congruence.
Qed.

Lemma rounds_log_snoc (Ls Rs : list G1Point) (Lk Rk : G1Point) :
  length Ls = length Rs ->
  rounds_log (Ls ++ [Lk]) (Rs ++ [Rk]) =
  rounds_log Ls Rs ++ [WritePoint Lk; WritePoint Rk; HashTaken].
Proof.
  intros Hlen. unfold rounds_log.
  revert Rs Hlen; induction Ls as [|L0 Ls IH]; intros [|R0 Rs] Hlen;
    try discriminate; simpl.
  - reflexivity.
  - injection Hlen as Hlen. now rewrite IH.
Qed.

Lemma ipa_round_inl_log (gens : Generators G1Point) (x_ip : Scalar)
      (sf : list Scalar) (s s' : ipa_t) :
  ipa_round gens x_ip sf s = inl s' ->
  round s = length (p_Ls (ipa_proof s)) ->
  round s = length (p_Rs (ipa_proof s)) ->
  exists Lk Rk,
    p_Ls (ipa_proof s') = p_Ls (ipa_proof s) ++ [Lk] /\
    p_Rs (ipa_proof s') = p_Rs (ipa_proof s) ++ [Rk] /\
    same_commitments (ipa_proof s) (ipa_proof s') /\
    round s' = S (round s) /\
    ipa_transcript s' =
    ipa_transcript s ++ [WritePoint Lk; WritePoint Rk; HashTaken].
Proof.
  intros Hround HL HR.
  assert (NL : forall Lk, G1Points_at (p_Ls (ipa_proof s) ++ [Lk]) (round s) = Lk)
    by (intros; unfold G1Points_at; rewrite HL; apply nth_middle).
  assert (NR : forall Rk, G1Points_at (p_Rs (ipa_proof s) ++ [Rk]) (round s) = Rk)
    by (intros; unfold G1Points_at; rewrite HR; apply nth_middle).
  revert Hround. unfold ipa_round. cbv zeta.
  destruct (is_zero _); [discriminate|].
  intros [= <-].
  cbn [ipa_proof round ipa_transcript p_Ls p_Rs set_Ls set_Rs].
  rewrite NL, NR, <- !app_assoc.
  do 2 eexists. repeat split.
Qed.

Lemma ipa_loop_log (fuel : nat) (gens : Generators G1Point) (x_ip : Scalar)
      (sf : list Scalar) (s : ipa_t) (p : proof_t)
      (tr : list (Entry Scalar G1Point)) :
  ipa_loop fuel gens x_ip sf s = Some (true, p, tr) ->
  round s = length (p_Ls (ipa_proof s)) ->
  round s = length (p_Rs (ipa_proof s)) ->
  exists newLs newRs,
    length newLs = length newRs /\
    p_Ls p = p_Ls (ipa_proof s) ++ newLs /\
    p_Rs p = p_Rs (ipa_proof s) ++ newRs /\
    same_commitments (ipa_proof s) p /\
    tr = ipa_transcript s ++ rounds_log newLs newRs.
Proof.
  revert s; induction fuel as [|fuel IH]; intros s; simpl.
  - destruct (n_prime s <=? 1); [|discriminate].
    intros [= <- <-] _ _. exists [], []. simpl.
    rewrite !app_nil_r. repeat split.
  - destruct (n_prime s <=? 1).
    + intros [= <- <-] _ _. exists [], []. simpl.
      rewrite !app_nil_r. repeat split.
    + destruct (ipa_round gens x_ip sf s) as [s'|[p' tr']] eqn:R;
        [|discriminate].
      intros Hloop HL HR.
      destruct (ipa_round_inl_log _ _ _ _ R HL HR)
        as (Lk & Rk & EL & ER & Hsame & Hround & Htr).
      apply IH in Hloop; [| rewrite EL, length_app; simpl; lia
                           | rewrite ER, length_app; simpl; lia].
      destruct Hloop as (newLs & newRs & Hlen & EL' & ER' & Hsame' & Htr').
      exists (Lk :: newLs), (Rk :: newRs).
      split; [simpl; lia|].
      split; [rewrite EL', EL, <- app_assoc; reflexivity|].
      split; [rewrite ER', ER, <- app_assoc; reflexivity|].
      split; [exact (same_commitments_trans Hsame Hsame')|].
      rewrite Htr', Htr, <- app_assoc. reflexivity.
Qed.

Lemma InnerProductArgument_log (n : nat) (gens : Generators G1Point)
      (x_ip : Scalar) (l r : list Scalar) (y : Scalar) (p0 p : proof_t)
      (tr0 tr : list (Entry Scalar G1Point)) :
  InnerProductArgument n gens x_ip l r y p0 tr0 = Some (true, p, tr) ->
  p_Ls p0 = [] -> p_Rs p0 = [] ->
  same_commitments p0 p /\ tr = tr0 ++ rounds_log (p_Ls p) (p_Rs p).
Proof.
  unfold InnerProductArgument. cbv zeta. intros Hloop HL HR.
  apply ipa_loop_log in Hloop; simpl; [| now rewrite HL | now rewrite HR].
  destruct Hloop as (newLs & newRs & _ & EL & ER & Hsame & Htr).
  simpl in EL, ER, Hsame, Htr. rewrite HL in EL. rewrite HR in ER.
  simpl in EL, ER. subst newLs newRs. auto.
Qed.

(** An attempt that returns, started with empty [Ls] and [Rs], has written
    [attempt_log] with the challenges it derived, and the scalar after [mu]
    is the member [t] as it stood before the attempt. *)
Lemma prove_attempt_returned_log (vs : list Scalar) (nonce : G1Point)
      (message : list byte) (gens : Generators G1Point)
      (gammas aL aR : list Scalar) (concat : nat) (st st' : state_t)
      (p : proof_t) :
  prove_attempt vs nonce message gens gammas aL aR concat st
  = Finished (Returned p) st' ->
  p_Ls (proof st) = [] -> p_Rs (proof st) = [] ->
  p_Vs p = p_Vs (proof st) /\ p_t p = p_t (proof st) /\
  exists y z x,
    transcript st' = transcript st ++ attempt_log p y z x (p_t p) /\
    y = GetHash (transcript st ++ firstn 2 (attempt_log p y z x (p_t p))) /\
    z = GetHash (transcript st ++ firstn 4 (attempt_log p y z x (p_t p))) /\
    x = GetHash (transcript st ++ firstn 8 (attempt_log p y z x (p_t p))).
Proof.
  set (P := fun a =>
              a = Finished (Returned p) st' ->
              p_Ls (proof st) = [] -> p_Rs (proof st) = [] ->
              p_Vs p = p_Vs (proof st) /\ p_t p = p_t (proof st) /\
              exists y z x,
                transcript st' = transcript st ++ attempt_log p y z x (p_t p) /\
                y = GetHash (transcript st ++ firstn 2 (attempt_log p y z x (p_t p))) /\
                z = GetHash (transcript st ++ firstn 4 (attempt_log p y z x (p_t p))) /\
                x = GetHash (transcript st ++ firstn 8 (attempt_log p y z x (p_t p)))).
  change (P (prove_attempt vs nonce message gens gammas aL aR concat st)).
  cbv beta delta [prove_attempt].
  name_locals.
  destruct (m_max_prove_tries cfg <? num_tries0); [subst P; discriminate|].
  name_locals.
  destruct (is_zero y); [subst P; discriminate|].
  name_locals.
  destruct (is_zero z); [subst P; discriminate|].
  name_locals.
  destruct (is_zero x); [subst P; discriminate|].
  name_locals.
  destruct (negb _); [subst P; discriminate|].
  name_locals.
  destruct (is_zero x_ip); [subst P; discriminate|].
  destruct (InnerProductArgument concat gens x_ip l r y proof6 transcript13)
    as [[[ok q] tr]|] eqn:Eipa; [|subst P; discriminate].
  destruct ok; [|subst P; discriminate].
  subst P. cbv beta. intros [= <- <-] HL HR.
  apply InnerProductArgument_log in Eipa; [| exact HL | exact HR].
  destruct Eipa as [(EV & EA & ES & ET1 & ET2 & Etau & Emu & _ & Et) ->].
  split; [exact EV|]. split; [exact Et|].
  exists y, z, x. unfold attempt_log.
  rewrite EA, ES, ET1, ET2, Etau, Emu, Et.
  cbn [transcript firstn app].
  split; [|split; [|split]].
  - subst transcript13 transcript12 transcript11 transcript10 transcript9
          transcript8 transcript7 transcript6 transcript5 transcript4
          transcript3 transcript2 transcript1 transcript0.
    rewrite <- !app_assoc. reflexivity.
  - subst y transcript1 transcript0. rewrite <- !app_assoc. reflexivity.
  - subst z transcript4 transcript3 transcript2 transcript1 transcript0.
    rewrite <- !app_assoc. reflexivity.
  - subst x transcript8 transcript7 transcript6 transcript5 transcript4
          transcript3 transcript2 transcript1 transcript0.
    rewrite <- !app_assoc. reflexivity.
Qed.

(** X10.  On every run of [Prove] that returns from its first attempt the
    transcript holds, in this order, the value commitments, then
    [A, S, (y), y, (z), z, T1, T2, (x), x, tau_x, mu, t, (x_ip)] and
    [L, R, (challenge)] for every round, where [t] is the member [proof.t],
    still at its default value. *)
Lemma Prove_first_attempt_transcript (vs : list Scalar) (nonce : G1Point)
      (message : list byte) (token_id : TokenId) (p : proof_t) (st : state_t) :
  Prove_trace vs nonce message token_id = (Returned p, st) ->
  num_tries st = 1 ->
  let written_Vs :=
    map (fun i => WritePoint (G1Points_at (p_Vs p) i)) (seq 0 (length vs)) in
  p_t p = Scalar_default /\
  exists y z x,
    transcript st = written_Vs ++ attempt_log p y z x (p_t p) /\
    y = GetHash (written_Vs ++ firstn 2 (attempt_log p y z x (p_t p))) /\
    z = GetHash (written_Vs ++ firstn 4 (attempt_log p y z x (p_t p))) /\
    x = GetHash (written_Vs ++ firstn 8 (attempt_log p y z x (p_t p))).
Proof.
  intros Hrun Hone.
  destruct (arguments_rejected_dec vs message) as [[Hrej _]|(Hm & Hv & _)].
  { destruct (@Prove_trace_rejected vs nonce message token_id Hrej)
      as (e & _ & He).
    rewrite He in Hrun. discriminate. }
  destruct (@Prove_trace_accepted vs nonce message token_id Hm Hv)
    as (gens & gammas & aL & aR & Htry).
  rewrite Htry in Hrun. simpl in Hrun.
  pose proof (prove_attempt_spec vs nonce message gens gammas aL aR
                (GetFirstPowerOf2GreaterOrEqTo (length vs) * bits)
                (first_state vs nonce token_id)) as Ha.
  destruct (prove_attempt vs nonce message gens gammas aL aR _
                          (first_state vs nonce token_id))
    as [st1|o st1] eqn:Eatt.
  - exfalso. simpl in Ha. destruct Ha as (Hn & Hmax & _).
    pose proof (try_again_spec vs nonce message gens gammas aL aR
                  (GetFirstPowerOf2GreaterOrEqTo (length vs) * bits)
                  (m_max_prove_tries cfg) st1) as Hrest.
    rewrite Hrun in Hrest. unfold run_ok in Hrest.
    change (num_tries (first_state vs nonce token_id)) with 0 in Hn.
    destruct Hrest as (_ & [[He _]|(_ & Hlt & _)] & _); [lia | lia | discriminate | lia].
  - injection Hrun as -> ->.
    apply prove_attempt_returned_log in Eatt; [| reflexivity | reflexivity].
    destruct Eatt as (EV & Et & y & z & x & Htr & Hy & Hz & Hx).
    change (p_t (proof (first_state vs nonce token_id))) with Scalar_default in Et.
    cbv zeta. split; [exact Et|].
    exists y, z, x.
    assert (Efirst : transcript (first_state vs nonce token_id) =
                     map (fun i => WritePoint (G1Points_at (p_Vs p) i))
                         (seq 0 (length vs))).
    { unfold first_state. cbv zeta. cbn [transcript]. rewrite EV.
      reflexivity. }
    rewrite <- Efirst. auto.
Qed.

End RangeProofFacts.

(** * Runs on the concrete collaborators *)

Lemma zr_spec (z : Z) : zr z = (z mod bls_r)%Z.
Proof.
  unfold zr. rewrite BigZ.spec_modulo, BigZ.spec_of_Z. reflexivity.
Qed.

Lemma mulr_spec (x y : Z) : mulr x y = ((x * y) mod bls_r)%Z.
Proof.
  unfold mulr. rewrite BigZ.spec_modulo, BigZ.spec_mul, !BigZ.spec_of_Z.
  reflexivity.
Qed.

Lemma honest_run_eq :
  Prove_trace (L := toy mixing_hash) [100%Z] toy_nonce hello_world 0 =
  (Returned honest_proof, honest_state).
Proof.
  vm_cast_no_check
    (eq_refl (Returned honest_proof, honest_state)).
Qed.

Lemma retried_run_eq :
  Prove_trace (L := toy (zero_at_hash 4)) [100%Z] toy_nonce hello_world 0 =
  (Returned retried_proof, retried_state).
Proof.
  vm_cast_no_check
    (eq_refl (Returned retried_proof, retried_state)).
Qed.

(** C1 on the concrete collaborators: one value, the 11-byte message. *)
Lemma Verify_rejects_first_attempt_proof_witness :
  Prove_trace (L := toy mixing_hash) [100%Z] toy_nonce hello_world 0 =
  (Returned honest_proof, honest_state) /\
  length (p_Ls honest_proof) = 6 /\
  GetInnerProdArgRounds (L := toy mixing_hash) 64 = 12 /\
  Verify (L := toy mixing_hash) [(0, honest_proof)] 0 = false.
Proof.
  split; [exact honest_run_eq|].
  split; [reflexivity|]. split; [reflexivity|].
  apply (@Verify_rejects_first_attempt_proof (toy mixing_hash)
           [100%Z] toy_nonce hello_world 0 honest_proof honest_state 0).
  - exact honest_run_eq.
  - reflexivity.
  - vm_compute. lia.
  - vm_compute. lia.
Defined.

(** C2, evaluation of the code.  [Prove] commits to the value as
    [H*gamma + G*v]; [RecoverTxIns] recomputes [G*gamma + H*v].  On the proof
    made for the value 100 and the 11-byte message, handed over with the
    challenges [x] and [z] of the run and the right nonce, the value and the
    message are recovered from [mu] and [tau_x], but the recomputed
    commitment differs from [Vs[0]], so the input is skipped and the result is
    empty. *)
Theorem RecoverTxIns_skips_honest_proof :
  let gens := toy_generators 0 in
  let gamma := GetHashWithSalt (Arith := toy mixing_hash) toy_nonce 100 in
  Prove (L := toy mixing_hash) [100%Z] toy_nonce hello_world 0 =
  Returned honest_proof /\
  honest_z = mixing_hash (firstn 5 (transcript honest_state)) /\
  honest_x = mixing_hash (firstn 9 (transcript honest_state)) /\
  input_value0_of (L := toy mixing_hash) honest_tx_in = 100%Z /\
  GetTrimmedVch (L := toy mixing_hash)
    (Z.shiftr (message_v0_of (L := toy mixing_hash) honest_tx_in) 64)
  ++ GetTrimmedVch (L := toy mixing_hash)
       (msg2_scalar_of (L := toy mixing_hash) honest_tx_in) = hello_world /\
  nth 0 (p_Vs honest_proof) 0%Z =
  zr (mulr (g_H gens) gamma + mulr (g_G gens) 100) /\
  input_value0_commitment_of (L := toy mixing_hash) gens honest_tx_in =
  zr (mulr (g_G gens) gamma + mulr (g_H gens) 100) /\
  input_value0_commitment_of (L := toy mixing_hash) gens honest_tx_in <>
  nth 0 (p_Vs honest_proof) 0%Z /\
  RecoverTxIns (L := toy mixing_hash) [honest_tx_in] 0 = [].
Proof.
  cbv zeta.
  split; [unfold Prove; now rewrite honest_run_eq|].
  repeat (split; [vm_compute; reflexivity|]).
  split; [vm_compute; discriminate|].
  vm_compute; reflexivity.
Qed.

(** C4, evaluation of the code.  [proof] is declared before the label
    [try_again] and [InnerProductArgument] appends to [proof.Ls] and
    [proof.Rs] before it tests the round challenge.  With a zero challenge
    in the first round of the first attempt, the proof returned by the
    second attempt has 7 entries in [Ls] and in [Rs], one left over from the
    failed attempt, where [log2 (round_up_pow2 1 * 64)] is 6. *)
Theorem Prove_keeps_rounds_of_failed_attempt :
  Prove (L := toy (zero_at_hash 4)) [100%Z] toy_nonce hello_world 0 =
  Returned retried_proof /\
  num_tries retried_state = 2 /\
  length (p_Vs retried_proof) = 1 /\
  length (p_Ls retried_proof) = 7 /\
  length (p_Rs retried_proof) = 7 /\
  Nat.log2 (GetFirstPowerOf2GreaterOrEqTo 1 * bits (L := toy (zero_at_hash 4))) = 6.
Proof.
  split; [unfold Prove; now rewrite retried_run_eq|].
  repeat split; reflexivity.
Qed.

(** C9, evaluation of the code.  On a run without retry the transcript is
    written in the order [Vs.., A, S, (y), y, (z), z, T1, T2, (x), x, tau_x,
    mu, _, (x_ip)] and then [L, R, (challenge)] per round; the scalar written
    after [mu] is [proof.t], which [Prove] never assigns and which still holds
    the default scalar, not [proof.t_hat]. *)
Theorem Prove_transcript_writes_t_not_t_hat :
  Prove_trace (L := toy mixing_hash) [100%Z] toy_nonce hello_world 0 =
  (Returned honest_proof, honest_state) /\
  honest_y = mixing_hash (firstn 3 (transcript honest_state)) /\
  honest_z = mixing_hash (firstn 5 (transcript honest_state)) /\
  honest_x = mixing_hash (firstn 9 (transcript honest_state)) /\
  transcript honest_state =
  ordered_transcript (L := toy mixing_hash) honest_proof
                     honest_y honest_z honest_x (p_t honest_proof) /\
  p_t honest_proof = Scalar_default (Arith := toy mixing_hash) /\
  p_t_hat honest_proof <> p_t honest_proof /\
  transcript honest_state <>
  ordered_transcript (L := toy mixing_hash) honest_proof
                     honest_y honest_z honest_x (p_t_hat honest_proof).
Proof.
  split; [exact honest_run_eq|].
  repeat (split; [vm_compute; reflexivity|]).
  split; vm_compute; discriminate.
Qed.

(** C5, counterexample.  With a hash that is always zero, [Prove] fails on
    arguments that pass all three checks. *)
Lemma Prove_fails_on_accepted_arguments :
  ~ ((exists e, Prove (L := toy zero_hash) [100%Z] toy_nonce hello_world 0
                = Thrown e) <->
     (m_max_message_size toy_config < length hello_world \/
      [100%Z] = [] \/
      m_max_input_values toy_config < length [100%Z])).
Proof.
  intros [Himp _].
  assert (Hfail : exists e, Prove (L := toy zero_hash) [100%Z] toy_nonce
                                  hello_world 0 = Thrown e).
  { destruct (@Prove_trace_all_zero (toy zero_hash) [100%Z] toy_nonce
                                    hello_world 0)
      as (st & Hrun & _).
    - vm_compute. lia.
    - vm_compute. lia.
    - intros log. reflexivity.
    - exists ExceededMaxTries. unfold Prove. now rewrite Hrun. }
  destruct (Himp Hfail) as [H|[H|H]].
  - vm_compute in H. lia.
  - discriminate H.
  - vm_compute in H. lia.
Qed.

(** C6 on the concrete collaborators with the hash that is always zero and
    the value 100, of 7 binary digits: 100 attempts. *)
Lemma Prove_retry_bound_witness :
  Prove (L := toy zero_hash) [100%Z] toy_nonce hello_world 0 =
  Thrown ExceededMaxTries /\
  num_tries (snd (Prove_trace (L := toy zero_hash) [100%Z] toy_nonce
                              hello_world 0)) = 101 /\
  count_hashes
    (transcript (snd (Prove_trace (L := toy zero_hash) [100%Z] toy_nonce
                                  hello_world 0))) = 100.
Proof.
  destruct (@Prove_retry_bound (toy zero_hash) [100%Z] toy_nonce hello_world 0)
    as (_ & _ & H).
  apply H.
  - vm_compute. lia.
  - vm_compute. lia.
  - repeat constructor.
  - intros log. reflexivity.
Defined.

(** C3 on the concrete collaborators: one value, 6 rounds and 12 rounds. *)
Lemma Verify_expected_rounds_witness :
  Verify (L := toy mixing_hash) [(0, toy_proof_of_rounds 6)] 0 = false /\
  ValidateProofsBySizes (L := toy mixing_hash) [(0, toy_proof_of_rounds 12)] 12
  = true.
Proof.
  split.
  - apply (@Verify_expected_rounds_ignore_value_count (toy mixing_hash)
             0 (toy_proof_of_rounds 6) 0);
      try reflexivity; vm_compute; lia.
  - apply (@Verify_expected_rounds_ignore_value_count (toy mixing_hash)
             0 (toy_proof_of_rounds 12) 0);
      try reflexivity; vm_compute; lia.
Defined.

(** C8 on the concrete collaborators: the values 1, 2 and 3. *)
Lemma flatten_aL_not_padded_witness :
  length (flatten_aL (L := toy mixing_hash) [1%Z; 2%Z; 3%Z]) = 192 /\
  GetFirstPowerOf2GreaterOrEqTo 3 * 64 = 256.
Proof.
  destruct (@flatten_aL_not_padded_to_power_of_two (toy mixing_hash)
              [1%Z; 2%Z; 3%Z]) as (H1 & H2 & _).
  - vm_compute. lia.
  - reflexivity.
  - repeat constructor.
  - reflexivity.
  - split; [exact H1 | exact H2].
Defined.

(** * Properties of the further parts *)

Section FurtherFacts.

Context {L : Arith}.

Local Abbreviation proof_t := (Proof Scalar G1Point).
Local Abbreviation txin_t := (TxInToRecover Scalar G1Point).
Local Abbreviation ipa_t := (IpaState Scalar G1Point).
Local Abbreviation state_t := (ProveState Scalar G1Point).

(** ** Shape validation of a batch *)

Lemma ValidateProofsBySizes_cons (p : nat * proof_t) (rest : list (nat * proof_t))
      (num_rounds : nat) :
  ValidateProofsBySizes (p :: rest) num_rounds = true <->
  shape_ok num_rounds (snd p) /\ ValidateProofsBySizes rest num_rounds = true.
Proof.
  unfold shape_ok. simpl.
  destruct (length (p_Vs (snd p)) =? 0) eqn:E0.
  { apply Nat.eqb_eq in E0. split; [discriminate | intros [[H _] _]; lia]. }
  apply Nat.eqb_neq in E0.
  destruct (m_max_input_values cfg <? length (p_Vs (snd p))) eqn:E1.
  { apply Nat.ltb_lt in E1. split; [discriminate | intros [[H _] _]; lia]. }
  apply Nat.ltb_ge in E1.
  destruct (length (p_Ls (snd p)) =? num_rounds) eqn:E2; simpl.
  2:{ apply Nat.eqb_neq in E2. split; [discriminate | intros [(_ & H & _) _]; lia]. }
  apply Nat.eqb_eq in E2.
  destruct (length (p_Ls (snd p)) =? length (p_Rs (snd p))) eqn:E3; simpl.
  2:{ apply Nat.eqb_neq in E3. split; [discriminate | intros [(_ & _ & H) _]; lia]. }
  apply Nat.eqb_eq in E3.
  split; [intros H; repeat split; auto; lia | intros [_ H]; exact H].
Qed.

Lemma ValidateProofsBySizes_Forall (indexed_proofs : list (nat * proof_t))
      (num_rounds : nat) :
  ValidateProofsBySizes indexed_proofs num_rounds = true <->
  Forall (fun p => shape_ok num_rounds (snd p)) indexed_proofs.
Proof.
  induction indexed_proofs as [|p rest IH].
  - simpl. split; auto.
  - rewrite ValidateProofsBySizes_cons, IH. split.
    + intros [H1 H2]. now constructor.
    + intros H. inversion H; subst. auto.
Qed.

(** X1.  [ValidateProofsBySizes] accepts a batch exactly when every proof
    of it has between one and [m_max_input_values] value commitments and
    exactly [num_rounds] entries in [Ls] and in [Rs].  [Verify], which asks
    for [GetInnerProdArgRounds(m_input_value_bits)] rounds, returns [true]
    only for a batch of that shape, and a single proof of another shape
    anywhere in the batch makes it return [false]. *)
Theorem Verify_shape_of_whole_batch
        (indexed_proofs : list (nat * proof_t)) (token_id : TokenId) :
  let num_rounds := GetInnerProdArgRounds bits in
  (ValidateProofsBySizes indexed_proofs num_rounds = true <->
   Forall (fun p => shape_ok num_rounds (snd p)) indexed_proofs) /\
  (Verify indexed_proofs token_id = true ->
   Forall (fun p => shape_ok num_rounds (snd p)) indexed_proofs) /\
  (forall p, In p indexed_proofs -> ~ shape_ok num_rounds (snd p) ->
             Verify indexed_proofs token_id = false).
Proof.
  intros num_rounds.
  split; [apply ValidateProofsBySizes_Forall|].
  assert (Hv : Verify indexed_proofs token_id = true ->
               ValidateProofsBySizes indexed_proofs num_rounds = true).
  { unfold Verify. fold bits. fold num_rounds.
    destruct (ValidateProofsBySizes indexed_proofs num_rounds); [auto | discriminate]. }
  split.
  - intros H. apply ValidateProofsBySizes_Forall. auto.
  - intros p Hin Hbad.
    destruct (Verify indexed_proofs token_id) eqn:E; [|reflexivity].
    exfalso. apply Hbad.
    specialize (Hv eq_refl). apply ValidateProofsBySizes_Forall in Hv.
    rewrite Forall_forall in Hv. now apply Hv.
Qed.

(** ** GetTrimmedVch *)

Lemma strip_leading_zeros_split (vch : list byte) :
  exists zeros, vch = zeros ++ strip_leading_zeros vch /\ all_zero zeros.
Proof.
  induction vch as [|c vch (zeros & E & Hz)]; simpl.
  - exists []. split; [reflexivity | constructor].
  - destruct (Byte.eqb c x00) eqn:Ec.
    + apply Byte.byte_dec_bl in Ec. subst c.
      exists (x00 :: zeros). split; [simpl; now rewrite <- E | now constructor].
    + exists []. split; [reflexivity | constructor].
Qed.

(** X2.  [GetTrimmedVch] never lengthens the serialization, and what it
    drops are zero bytes at the front only: putting as many zero bytes back
    in front as were dropped gives [GetVch] again. *)
Theorem GetTrimmedVch_repadded (s : Scalar) :
  length (GetTrimmedVch s) <= length (GetVch s) /\
  repeat x00 (length (GetVch s) - length (GetTrimmedVch s)) ++ GetTrimmedVch s
  = GetVch s.
Proof.
  rewrite GetTrimmedVch_spec.
  destruct (strip_leading_zeros_split (GetVch s)) as (zeros & E & Hz).
  assert (Hrep : zeros = repeat x00 (length zeros)).
  { clear E. induction Hz as [|c l Hc _ IH]; simpl; [reflexivity|].
    now rewrite Hc, <- IH. }
  remember (strip_leading_zeros (GetVch s)) as trimmed eqn:Et. clear Et.
  rewrite E, length_app.
  split; [lia|].
  replace (length zeros + length trimmed - length trimmed)
    with (length zeros) by lia.
  now rewrite <- Hrep.
Qed.

Lemma strip_leading_zeros_nil (vch : list byte) :
  strip_leading_zeros vch = [] <-> all_zero vch.
Proof.
  unfold all_zero. induction vch as [|c vch IH]; simpl.
  - split; auto.
  - destruct (Byte.eqb c x00) eqn:Ec.
    + apply Byte.byte_dec_bl in Ec. subst c. rewrite IH. split.
      * intros H. now constructor.
      * intros H. now inversion H.
    + split; [discriminate|]. intros H. inversion H; subst. discriminate.
Qed.

(** X3.  [GetTrimmedVch] returns the empty vector exactly when every byte
    of the serialization is zero, and returns the serialization unchanged
    exactly when it does not begin with a zero byte. *)
Theorem GetTrimmedVch_fixed_or_empty (s : Scalar) :
  (GetTrimmedVch s = [] <-> all_zero (GetVch s)) /\
  (GetTrimmedVch s = GetVch s <-> hd_error (GetVch s) <> Some x00).
Proof.
  rewrite GetTrimmedVch_spec. split; [apply strip_leading_zeros_nil|].
  destruct (GetVch s) as [|c vch] eqn:E; simpl.
  - split; [discriminate | reflexivity].
  - destruct (Byte.eqb c x00) eqn:Ec.
    + apply Byte.byte_dec_bl in Ec. subst c. split.
      * intros H. exfalso.
        destruct (strip_leading_zeros_split vch) as (zeros & Ez & _).
        assert (Hlen : length (strip_leading_zeros vch) = S (length vch))
          by now rewrite H.
        rewrite Ez in Hlen at 2. rewrite length_app in Hlen. lia.
      * intros H. now elim H.
    + split; [|reflexivity]. intros _ [= ->]. discriminate.
Qed.

(** ** RecoverTxIns *)

Lemma recover_tx_in_recoverable (gens : Generators G1Point) (tx_in : txin_t) :
  recover_tx_in gens tx_in =
  if recoverable gens tx_in then Some (recovered_entry tx_in) else None.
Proof.
  unfold recover_tx_in, recoverable, recovered_entry.
  destruct (length (in_Vs tx_in) =? 0); simpl; [reflexivity|].
  destruct (0 <? length (in_Ls tx_in)); simpl; [|reflexivity].
  destruct (length (in_Ls tx_in) =? length (in_Rs tx_in)); simpl; [|reflexivity].
  destruct (G1Point_eqb _ _); reflexivity.
Qed.

(** X4.  [RecoverTxIns] keeps the order of its inputs: the result is the
    list of the entries of the inputs that pass the four checks, one entry
    for each of them, in the order in which they were given, and so the
    indices of the result are the indices of those inputs in that order. *)
Theorem RecoverTxIns_keeps_order (tx_ins : list txin_t) (token_id : TokenId) :
  RecoverTxIns tx_ins token_id =
  map recovered_entry (filter (recoverable (GetInstance token_id)) tx_ins) /\
  map (@out_index Scalar) (RecoverTxIns tx_ins token_id) =
  map (@in_index Scalar G1Point)
      (filter (recoverable (GetInstance token_id)) tx_ins).
Proof.
  assert (E : RecoverTxIns tx_ins token_id =
              map recovered_entry
                  (filter (recoverable (GetInstance token_id)) tx_ins)).
  { unfold RecoverTxIns. rewrite recover_loop_app. simpl.
    induction tx_ins as [|tx rest IH]; simpl; [reflexivity|].
    rewrite recover_tx_in_recoverable.
    destruct (recoverable (GetInstance token_id) tx); simpl; now rewrite IH. }
  split; [exact E|].
  rewrite E, map_map. reflexivity.
Qed.

(** X5.  Of [Ls] and [Rs] an input's recovery reads only the sizes, and of
    [Vs] only the first commitment: an input whose [Vs] is not empty gives
    the same result when [Ls] and [Rs] are replaced by any points of the
    same number and the commitments after the first by any others. *)
Theorem RecoverTxIns_ignores_round_points
        (tx_in : txin_t) (Ls Rs Vs_rest : list G1Point) (token_id : TokenId) :
  in_Vs tx_in <> [] ->
  length Ls = length (in_Ls tx_in) ->
  length Rs = length (in_Rs tx_in) ->
  RecoverTxIns [with_other_rounds tx_in Ls Rs Vs_rest] token_id =
  RecoverTxIns [tx_in] token_id.
Proof.
  intros HV HL HR. unfold RecoverTxIns. simpl.
  rewrite !recover_tx_in_recoverable.
  assert (E : recoverable (GetInstance token_id)
                          (with_other_rounds tx_in Ls Rs Vs_rest) =
              recoverable (GetInstance token_id) tx_in).
  { unfold recoverable, with_other_rounds. simpl.
    rewrite HL, HR.
    destruct (in_Vs tx_in) as [|v Vs]; [now elim HV|]. reflexivity. }
  rewrite E. destruct (recoverable _ tx_in); reflexivity.
Qed.

(** ** InnerProductArgument *)

Lemma ipa_round_transcript (gens : Generators G1Point) (x_ip : Scalar)
      (sf : list Scalar) (s : ipa_t) :
  exists ext, length ext = 3 /\
    match ipa_round gens x_ip sf s with
    | inl s' => ipa_transcript s' = ipa_transcript s ++ ext
    | inr (_, tr) => tr = ipa_transcript s ++ ext
    end.
Proof.
  unfold ipa_round. cbv zeta.
  destruct (is_zero _); simpl; rewrite <- !app_assoc; simpl;
    eexists; (split; [|reflexivity]); reflexivity.
Qed.

Lemma ipa_loop_runs (fuel : nat) (gens : Generators G1Point)
      (x_ip : Scalar) (sf : list Scalar) (s : ipa_t) (ok : bool)
      (p : proof_t) (tr : list (Entry Scalar G1Point)) :
  ipa_loop fuel gens x_ip sf s = Some (ok, p, tr) ->
  exists k ext,
    same_but_rounds (ipa_proof s) p k /\
    tr = ipa_transcript s ++ ext /\ length ext = 3 * k /\
    (ok = true -> k = Nat.log2 (n_prime s)) /\
    (ok = false -> 1 <= k <= Nat.log2 (n_prime s)).
Proof.
  revert s; induction fuel as [|fuel IH]; intros s Hloop.
  - simpl in Hloop. destruct (n_prime s <=? 1) eqn:E; [|discriminate].
    injection Hloop as <- <- <-.
    apply Nat.leb_le in E.
    exists 0, []. rewrite app_nil_r.
    split; [unfold same_but_rounds; simpl; rewrite !Nat.add_0_r; auto|].
    split; [reflexivity|]. split; [reflexivity|].
    split; [|discriminate].
    intros _. destruct (n_prime s) as [|[|n]]; [reflexivity|reflexivity|lia].
  - simpl in Hloop. destruct (n_prime s <=? 1) eqn:E.
    + injection Hloop as <- <- <-.
      apply Nat.leb_le in E.
      exists 0, []. rewrite app_nil_r.
      split; [unfold same_but_rounds; simpl; rewrite !Nat.add_0_r; auto|].
      split; [reflexivity|]. split; [reflexivity|].
      split; [|discriminate].
      intros _. destruct (n_prime s) as [|[|n]]; [reflexivity|reflexivity|lia].
    + apply Nat.leb_gt in E.
      destruct (ipa_round_transcript gens x_ip sf s) as (ext1 & Hlen1 & Hext1).
      destruct (ipa_round gens x_ip sf s) as [s'|[p' tr']] eqn:R.
      * pose proof (ipa_round_inl _ _ _ _ R) as [Hn Hsame1].
        apply IH in Hloop.
        destruct Hloop as (k & ext & Hsame & Htr & Hlen & Ht & Hf).
        exists (S k), (ext1 ++ ext).
        split; [exact (same_but_rounds_trans Hsame1 Hsame)|].
        split; [rewrite Htr, Hext1, app_assoc; reflexivity|].
        split; [rewrite length_app; lia|].
        rewrite (log2_halve E). rewrite Hn in Ht, Hf.
        split; intros Hok; [specialize (Ht Hok) | specialize (Hf Hok)]; lia.
      * injection Hloop as <- <- <-.
        pose proof (ipa_round_inr _ _ _ _ R) as Hsame1.
        exists 1, ext1. split; [exact Hsame1|].
        split; [exact Hext1|]. split; [simpl; lia|].
        rewrite (log2_halve E). split; [discriminate | intros _; lia].
Qed.

(** X6.  [InnerProductArgument] always comes back, with [true] or with
    [false].  It leaves [Vs] alone, adds the same number [k] of points to
    [Ls] and to [Rs] and three entries per added pair to the transcript,
    after what was there.  When it returns [true], [k] is [log2 n]; when it
    returns [false], [k] is at least one and at most [log2 n]: the pair of
    the round with the zero challenge has been added already. *)
Theorem InnerProductArgument_rounds (n : nat) (gens : Generators G1Point)
        (x_ip : Scalar) (l r : list Scalar) (y : Scalar) (p0 : proof_t)
        (tr0 : list (Entry Scalar G1Point)) :
  exists ok p tr k ext,
    InnerProductArgument n gens x_ip l r y p0 tr0 = Some (ok, p, tr) /\
    p_Vs p = p_Vs p0 /\
    length (p_Ls p) = length (p_Ls p0) + k /\
    length (p_Rs p) = length (p_Rs p0) + k /\
    tr = tr0 ++ ext /\ length ext = 3 * k /\
    (ok = true -> k = Nat.log2 n) /\
    (ok = false -> 1 <= k <= Nat.log2 n).
Proof.
  destruct (InnerProductArgument_returns n gens x_ip l r y p0 tr0)
    as (ok & p & tr & Hrun & _).
  exists ok, p, tr.
  pose proof Hrun as Hloop. unfold InnerProductArgument in Hloop.
  apply ipa_loop_runs in Hloop. simpl in Hloop.
  destruct Hloop as (k & ext & (HV & _ & HL & HR) & Htr & Hlen & Ht & Hf).
  exists k, ext. repeat split; auto; try (apply Hf; assumption).
Qed.

(** ** Prove *)

(** X7.  A proof returned by [Prove] has as many entries in [Ls] as in
    [Rs], and at least [log2] of the padded bit length
    [GetFirstPowerOf2GreaterOrEqTo(vs.size) * m_input_value_bits].  When
    [Prove] returned from its first attempt that number is exact, and, the
    bit width being positive, it is [GetInnerProdArgRounds(vs.size)]. *)
Theorem Prove_returned_rounds (vs : list Scalar) (nonce : G1Point)
        (message : list byte) (token_id : TokenId) (p : proof_t) (st : state_t) :
  Prove_trace vs nonce message token_id = (Returned p, st) ->
  let concat := GetFirstPowerOf2GreaterOrEqTo (length vs) * bits in
  length (p_Ls p) = length (p_Rs p) /\
  Nat.log2 concat <= length (p_Ls p) /\
  (num_tries st = 1 -> length (p_Ls p) = Nat.log2 concat) /\
  (num_tries st = 1 -> 1 <= bits ->
   length (p_Ls p) = GetInnerProdArgRounds (length vs)).
Proof.
  intros Hrun concat.
  destruct (Prove_returned_shape _ _ _ _ Hrun) as (_ & _ & _ & HLR & Hge & Hone).
  split; [exact HLR|]. split; [exact Hge|]. split; [exact Hone|].
  intros H1 Hb. rewrite (Hone H1). subst concat.
  rewrite log2_concat by exact Hb.
  unfold GetInnerProdArgRounds. now rewrite log2_GetFirstPowerOf2GreaterOrEqTo.
Qed.

(** X8.  When [Prove] returns a proof, the arguments passed the checks at
    its start, between one and [m_max_prove_tries] attempts were made, and
    the value commitments of the proof are those computed before the first
    attempt, [H * gamma_i + G * vs[i]] with [gamma_i] derived from the nonce
    with salt [100 + i]: a retry never changes them. *)
Theorem Prove_returns_fixed_commitments (vs : list Scalar) (nonce : G1Point)
        (message : list byte) (token_id : TokenId) (p : proof_t) (st : state_t) :
  Prove_trace vs nonce message token_id = (Returned p, st) ->
  let gens := GetInstance token_id in
  let gammas :=
    map (fun i => GetHashWithSalt nonce (100 + N.of_nat i)) (seq 0 (length vs)) in
  length message <= m_max_message_size cfg /\
  1 <= length vs <= m_max_input_values cfg /\
  1 <= num_tries st <= m_max_prove_tries cfg /\
  proof st = p /\
  p_Vs p = G1Points_add (G1Point_mul_vec (g_H gens) gammas)
                        (G1Point_mul_vec (g_G gens) vs).
Proof.
  intros Hrun gens gammas.
  destruct (arguments_rejected_dec vs message) as [[Hrej _]|(Hm & Hv & _)].
  { destruct (@Prove_trace_rejected _ vs nonce message token_id Hrej)
      as (e & _ & He).
    rewrite He in Hrun. discriminate. }
  pose proof (@Prove_trace_run_ok _ vs nonce message token_id Hm Hv) as H.
  rewrite Hrun in H. unfold run_ok in H.
  destruct H as (_ & Htries & _ & Hret).
  destruct (Hret p eq_refl) as (Hp & k & (HV & _) & _).
  change (num_tries (first_state vs nonce token_id)) with 0 in Htries.
  split; [exact Hm|]. split; [exact Hv|].
  split; [destruct Htries as [[He _]|(_ & H1 & H2)]; [discriminate | lia]|].
  split; [exact Hp|]. exact HV.
Qed.

(** ** The transcript is never cleared *)

Ltac name_next_local :=
  lazymatch goal with
  | |- ?P (let a := ?v in @?b a) =>
      let a' := fresh "loc_" a in
      pose (a' := v); change (P (b a')); cbv beta
  end.

Ltac unfold_transcripts :=
  repeat match goal with
         | t := _ : list (Entry _ _) |- _ => subst t
         end.

Ltac extension_found :=
  unfold_transcripts; rewrite <- ?app_assoc;
  eexists; first [ split; [reflexivity | simpl; lia] | reflexivity ].

Lemma InnerProductArgument_extends (n : nat) (gens : Generators G1Point)
      (x_ip : Scalar) (l r : list Scalar) (y : Scalar) (p0 p : proof_t)
      (tr0 tr : list (Entry Scalar G1Point)) (ok : bool) :
  InnerProductArgument n gens x_ip l r y p0 tr0 = Some (ok, p, tr) ->
  exists ext, tr = tr0 ++ ext.
Proof.
  unfold InnerProductArgument. intros Hloop.
  apply ipa_loop_runs in Hloop. simpl in Hloop.
  destruct Hloop as (k & ext & _ & Htr & _). now exists ext.
Qed.

Lemma prove_attempt_extends (vs : list Scalar) (nonce : G1Point)
      (message : list byte) (gens : Generators G1Point)
      (gammas aL aR : list Scalar) (concat : nat) (st : state_t) :
  attempt_extends st (prove_attempt vs nonce message gens gammas aL aR concat st).
Proof.
  cbv beta delta [prove_attempt].
  repeat name_next_local.
  destruct (m_max_prove_tries cfg <? _).
  { simpl. exists []. now rewrite app_nil_r. }
  repeat name_next_local.
  destruct (is_zero _); [simpl; extension_found|].
  repeat name_next_local.
  destruct (is_zero _); [simpl; extension_found|].
  repeat name_next_local.
  destruct (is_zero _); [simpl; extension_found|].
  repeat name_next_local.
  destruct (negb _); [simpl; extension_found|].
  repeat name_next_local.
  destruct (is_zero _); [simpl; extension_found|].
  match goal with
  | |- context [InnerProductArgument ?n ?g ?x ?l ?r ?y ?p0 ?t0] =>
      destruct (InnerProductArgument n g x l r y p0 t0)
        as [[[ok q] tr]|] eqn:Eipa
  end.
  - apply InnerProductArgument_extends in Eipa. destruct Eipa as (e' & ->).
    destruct ok; simpl.
    + unfold_transcripts. rewrite <- ?app_assoc. eexists. reflexivity.
    + unfold_transcripts. rewrite <- ?app_assoc. eexists.
      split; [reflexivity | simpl; lia].
  - simpl. extension_found.
Qed.

Lemma try_again_extends (vs : list Scalar) (nonce : G1Point)
      (message : list byte) (gens : Generators G1Point)
      (gammas aL aR : list Scalar) (concat : nat)
      (fuel : nat) (st : state_t) :
  let res :=
    try_again fuel (prove_attempt vs nonce message gens gammas aL aR concat) st in
  exists ext,
    transcript (snd res) = transcript st ++ ext /\
    3 * (num_tries (snd res) - num_tries st - 1) <= length ext.
Proof.
  revert st; induction fuel as [|fuel IH]; intros st; simpl.
  - exists []. rewrite app_nil_r. split; [reflexivity | simpl; lia].
  - pose proof (prove_attempt_spec vs nonce message gens gammas aL aR concat st) as Hs.
    pose proof (prove_attempt_extends vs nonce message gens gammas aL aR concat st) as He.
    destruct (prove_attempt vs nonce message gens gammas aL aR concat st)
      as [st1|o st1]; simpl in Hs, He.
    + destruct Hs as (Hn & _). destruct He as (e1 & E1 & Hlen1).
      destruct (IH st1) as (e2 & E2 & Hlen2).
      exists (e1 ++ e2). split.
      * rewrite E2, E1, app_assoc. reflexivity.
      * rewrite length_app. lia.
    + destruct He as (e1 & E1). simpl. exists e1. split; [exact E1|].
      destruct o as [p|e|]; [| |contradiction].
      * destruct Hs as (Hn & _). rewrite Hn. lia.
      * destruct Hs as (Hn & _). rewrite Hn. lia.
Qed.

(** X9.  [Prove] never resets the transcript.  For arguments that pass the
    checks, whatever the outcome, the final transcript begins with the value
    commitments written before the first attempt, one per value, and every
    attempt that was started again left at least three entries behind it. *)
Theorem Prove_transcript_only_grows (vs : list Scalar) (nonce : G1Point)
        (message : list byte) (token_id : TokenId) :
  length message <= m_max_message_size cfg ->
  1 <= length vs <= m_max_input_values cfg ->
  let st := snd (Prove_trace vs nonce message token_id) in
  exists ext,
    transcript st = transcript (first_state vs nonce token_id) ++ ext /\
    length (transcript (first_state vs nonce token_id)) = length vs /\
    3 * (num_tries st - 1) <= length ext.
Proof.
  intros Hm Hv.
  destruct (@Prove_trace_accepted _ vs nonce message token_id Hm Hv)
    as (gens & gammas & aL & aR & ->).
  cbv zeta.
  match goal with |- context [try_again ?f (prove_attempt ?v ?n ?m ?g ?ga ?l ?r ?c) ?st0] =>
    destruct (try_again_extends v n m g ga l r c f st0) as (ext & E & Hlen)
  end.
  exists ext. split; [exact E|]. split.
  - unfold first_state. cbv zeta. cbn [transcript].
    now rewrite length_map, length_seq.
  - change (num_tries (first_state vs nonce token_id)) with 0 in Hlen. lia.
Qed.

(** ** The bit vector aL *)

Lemma flatten_aL_block (vs : list Scalar) (j : nat) :
  (N.of_nat bits < 2 ^ 64)%N ->
  Forall (fun v => length (GetBits v) <= bits) vs ->
  j < length vs ->
  firstn bits (skipn (j * bits) (flatten_aL vs)) = value_bits (nth j vs Scalar_default).
Proof.
  intros Hb Hall. revert j.
  induction Hall as [|v vs Hv Hall IH]; intros j Hj; simpl in Hj; [lia|].
  unfold flatten_aL in *. simpl.
  pose proof (value_bits_length v Hv Hb) as Hlen.
  destruct j as [|j]; simpl.
  - rewrite firstn_app, Hlen, Nat.sub_diag. simpl.
    rewrite app_nil_r. rewrite <- Hlen at 1. apply firstn_all.
  - rewrite skipn_app, Hlen.
    replace (bits + j * bits - bits) with (j * bits) by lia.
    rewrite skipn_all2 by lia. simpl. apply IH. lia.
Qed.

(** X12.  When no value has more binary digits than [m_input_value_bits],
    [aL] is made of one block of [m_input_value_bits] entries per value, in
    the order of the values: block [j] holds the binary digits of [vs[j]] as
    [GetBits] gives them, followed by zeros up to the width.  Its length is
    [vs.size * m_input_value_bits], which is the padded bit length when the
    number of values is a power of two. *)
Theorem flatten_aL_layout (vs : list Scalar) :
  (N.of_nat bits < 2 ^ 64)%N ->
  Forall (fun v => length (GetBits v) <= bits) vs ->
  length (flatten_aL vs) = length vs * bits /\
  (forall k, length vs = 2 ^ k ->
             length (flatten_aL vs) =
             GetFirstPowerOf2GreaterOrEqTo (length vs) * bits) /\
  (forall j, j < length vs ->
             firstn bits (skipn (j * bits) (flatten_aL vs)) =
             map Scalar_of_bool (GetBits (nth j vs Scalar_default))
             ++ repeat (Scalar_of_bool false)
                       (bits - length (GetBits (nth j vs Scalar_default)))).
Proof.
  intros Hb Hall.
  pose proof (flatten_aL_length Hb Hall) as Hlen.
  split; [exact Hlen|]. split.
  - intros k Hk. rewrite Hlen. f_equal.
    unfold GetFirstPowerOf2GreaterOrEqTo. rewrite Hk.
    now rewrite Nat.log2_up_pow2 by lia.
  - intros j Hj. rewrite (@flatten_aL_block vs j Hb Hall Hj). unfold value_bits.
    rewrite size_t_sub_le; [reflexivity | | exact Hb].
    rewrite Forall_forall in Hall. apply Hall. now apply nth_In.
Qed.

(** X13.  Every entry of [aL] is the scalar 0 or the scalar 1, whatever
    the values are. *)
Theorem flatten_aL_entries_are_bits (vs : list Scalar) :
  Forall (fun s => s = Scalar_of_Z 0 \/ s = Scalar_of_Z 1) (flatten_aL vs).
Proof.
  unfold flatten_aL. induction vs as [|v vs IH]; simpl; [constructor|].
  apply Forall_app. split; [|exact IH].
  unfold value_bits. apply Forall_app. split.
  - apply Forall_forall. intros s Hs. apply in_map_iff in Hs.
    destruct Hs as ([|] & <- & _); [right | left]; reflexivity.
  - apply Forall_forall. intros s Hs. apply repeat_spec in Hs. left. exact Hs.
Qed.

(** ** VerifyLoop1 *)

Section Loop1.

Variable D : Type.
Variable Build : proof_t -> nat -> D.
Variable init_max : nat.
Variable init_sum : N.

Lemma loop1_fold (ps : list (nat * proof_t)) (nr : nat) (res : VerifyLoop1Result D) :
  let res' := fold_left (loop1_step Build nr) ps res in
  proof_derivs res' = proof_derivs res ++ map (fun p => Build (snd p) nr) ps /\
  (Forall (fun p => shape_ok nr (snd p)) ps ->
   max_num_rounds res' =
   match ps with [] => max_num_rounds res | _ => Nat.max (max_num_rounds res) nr end /\
   ((Vs_size_sum res + N.of_nat (length ps * m_max_input_values cfg) < 2 ^ 64)%N ->
    (Vs_size_sum res + N.of_nat (length ps) <= Vs_size_sum res'
     <= Vs_size_sum res + N.of_nat (length ps * m_max_input_values cfg))%N)).
Proof.
  revert res; induction ps as [|p ps IH]; intros res; simpl.
  - rewrite app_nil_r. split; [reflexivity|]. intros _. split; [reflexivity|]. lia.
  - destruct (IH (loop1_step Build nr res p)) as [Hd Hrest].
    split; [rewrite Hd; simpl; now rewrite <- app_assoc|].
    intros Hall. inversion Hall as [|p' ps' Hp Hps]; subst.
    destruct (Hrest Hps) as [Hmax Hsum]. clear Hrest.
    destruct Hp as (HV & HL & HR).
    split.
    + rewrite Hmax. simpl. rewrite HL. destruct ps; lia.
    + intros Hbound. simpl in Hsum.
      rewrite N.mod_small in Hsum by lia.
      specialize (Hsum ltac:(lia)). lia.
Qed.

(** X14.  On a batch that [ValidateProofsBySizes] accepted for [num_rounds],
    [VerifyLoop1] derives one value per proof, in the order of the batch,
    each built with that same [num_rounds]; [max_num_rounds] is left at its
    initial value by the empty batch and is otherwise the maximum of the
    initial value and [num_rounds]; and, as long as the bound stays below
    [2^64], [Vs_size_sum] grows by at least one and at most
    [m_max_input_values] per proof. *)
Theorem VerifyLoop1_of_validated_batch (ps : list (nat * proof_t)) (nr : nat) :
  ValidateProofsBySizes ps nr = true ->
  let res := VerifyLoop1 Build init_max init_sum ps nr in
  proof_derivs res = map (fun p => Build (snd p) nr) ps /\
  max_num_rounds res = match ps with [] => init_max | _ => Nat.max init_max nr end /\
  ((init_sum + N.of_nat (length ps * m_max_input_values cfg) < 2 ^ 64)%N ->
   (init_sum + N.of_nat (length ps) <= Vs_size_sum res
    <= init_sum + N.of_nat (length ps * m_max_input_values cfg))%N).
Proof.
  intros Hval. apply ValidateProofsBySizes_Forall in Hval.
  unfold VerifyLoop1.
  destruct (loop1_fold ps nr (mkLoop1 init_max init_sum [])) as [Hd Hrest].
  destruct (Hrest Hval) as [Hmax Hsum].
  cbv zeta. split; [exact Hd|]. split; [exact Hmax | exact Hsum].
Qed.

End Loop1.

(** ** The cache of challenge products *)

Lemma write_at_length (i : nat) (v : Scalar) (w : list Scalar) :
  length (write_at i v w) = length w.
Proof.
  revert i; induction w as [|c w IH]; intros [|i]; simpl; auto.
Qed.

Lemma write_at_same (i : nat) (v : Scalar) (w : list Scalar) :
  i < length w -> Scalars_at (write_at i v w) i = v.
Proof.
  unfold Scalars_at.
  revert i; induction w as [|c w IH]; intros [|i] Hi; simpl in *; try lia.
  - reflexivity.
  - apply IH. lia.
Qed.

Lemma write_at_other (i k : nat) (v : Scalar) (w : list Scalar) :
  i <> k -> Scalars_at (write_at i v w) k = Scalars_at w k.
Proof.
  unfold Scalars_at.
  revert i k; induction w as [|c w IH]; intros [|i] [|k] Hik; simpl; try reflexivity.
  - now elim Hik.
  - apply IH. lia.
Qed.

Lemma half_of_odd (k : nat) : (2 * k + 1) / 2 = k.
Proof. symmetry. apply (Nat.div_unique _ 2 k 1); lia. Qed.

Lemma half_of_even (k : nat) : (2 * k) / 2 = k.
Proof. symmetry. apply (Nat.div_unique _ 2 k 0); lia. Qed.

Lemma half_bound (i k : nat) : i < 2 * k -> i / 2 < k.
Proof. intros H. apply Nat.Div0.div_lt_upper_bound. lia. Qed.

(** The inner loop started at [s = 2 * k] rewrites the first [2 * k]
    entries, each from the entry at half its index, and nothing else. *)
Lemma w_cache_inner_pairs (ws inv_ws : list Scalar) (j k : nat) :
  forall (fuel : nat) (w : list Scalar),
    k < fuel -> 2 * k <= length w -> (N.of_nat (2 * k) < 2 ^ 64)%N ->
    exists w',
      w_cache_inner fuel ws inv_ws j (2 * k) w = Some w' /\
      length w' = length w /\
      (forall i, i < 2 * k ->
                 Scalars_at w' i =
                 Scalar_mul (Scalars_at w (i / 2))
                            (if Nat.odd i then Scalars_at ws j
                             else Scalars_at inv_ws j)) /\
      (forall i, 2 * k <= i -> Scalars_at w' i = Scalars_at w i).
Proof.
  induction k as [|k IH]; intros fuel w Hfuel Hlen Hsize.
  - destruct fuel as [|fuel]; [lia|]. simpl.
    exists w. repeat split; auto. intros i Hi. lia.
  - destruct fuel as [|fuel]; [lia|].
    cbn [w_cache_inner].
    replace (0 <? 2 * S k) with true by (symmetry; apply Nat.ltb_lt; lia).
    cbv zeta.
    rewrite (size_t_sub_le (x := 2 * S k) (y := 1)) by lia.
    replace (2 * S k - 1) with (2 * k + 1) by lia.
    rewrite (size_t_sub_le (x := 2 * k + 1) (y := 1)) by lia.
    replace (2 * k + 1 - 1) with (2 * k) by lia.
    rewrite half_of_odd.
    set (w1 := write_at (2 * k + 1)
                        (Scalar_mul (Scalars_at w k) (Scalars_at ws j)) w).
    assert (Hk1 : Scalars_at w1 k = Scalars_at w k)
      by (apply write_at_other; lia).
    rewrite Hk1.
    set (w2 := write_at (2 * k)
                        (Scalar_mul (Scalars_at w k) (Scalars_at inv_ws j)) w1).
    assert (Hlen1 : length w1 = length w) by apply write_at_length.
    assert (Hlen2 : length w2 = length w)
      by (unfold w2; now rewrite write_at_length).
    destruct (IH fuel w2 ltac:(lia) ltac:(lia) ltac:(lia))
      as (w' & Hrun & Hlen' & Hlow & Hhigh).
    exists w'. split; [exact Hrun|]. split; [congruence|].
    assert (H2k : Scalars_at w2 (2 * k)
                  = Scalar_mul (Scalars_at w k) (Scalars_at inv_ws j))
      by (apply write_at_same; lia).
    assert (H2k1 : Scalars_at w2 (2 * k + 1)
                   = Scalar_mul (Scalars_at w k) (Scalars_at ws j)).
    { unfold w2. rewrite write_at_other by lia. apply write_at_same. lia. }
    split.
    + intros i Hi.
      destruct (Nat.lt_ge_cases i (2 * k)) as [Hlt|Hge].
      * rewrite (Hlow i Hlt). f_equal.
        pose proof (@half_bound _ _ Hlt) as Hh.
        unfold w2. rewrite write_at_other by lia.
        unfold w1. apply write_at_other. lia.
      * rewrite (Hhigh i Hge).
        assert (Hcase : i = 2 * k \/ i = 2 * k + 1) by lia.
        destruct Hcase as [-> | ->].
        -- rewrite H2k, half_of_even.
           replace (Nat.odd (2 * k)) with false; [reflexivity|].
           symmetry. rewrite <- Nat.negb_even. rewrite Nat.even_mul. reflexivity.
        -- rewrite H2k1, half_of_odd.
           replace (Nat.odd (2 * k + 1)) with true; [reflexivity|].
           symmetry. rewrite Nat.add_comm, Nat.odd_add_mul_2. reflexivity.
    + intros i Hi. rewrite (Hhigh i ltac:(lia)).
      unfold w2. rewrite write_at_other by lia.
      unfold w1. apply write_at_other. lia.
Qed.

Lemma challenge_product_step (ws inv_ws : list Scalar) (j i : nat) :
  1 <= j ->
  challenge_product ws inv_ws (S j) i =
  Scalar_mul (challenge_product ws inv_ws j (i / 2))
             (if Nat.odd i then Scalars_at ws j else Scalars_at inv_ws j).
Proof. intros Hj. destruct j as [|j]; [lia|]. reflexivity. Qed.

Lemma w_cache_outer_rounds (ws inv_ws : list Scalar) (n : nat) :
  (N.of_nat (2 ^ n) < 2 ^ 64)%N ->
  forall (m j : nat) (w : list Scalar),
    1 <= j -> j + m = n -> length w = 2 ^ n ->
    (forall i, i < 2 ^ j -> Scalars_at w i = challenge_product ws inv_ws j i) ->
    exists w',
      w_cache_outer (seq j m) ws inv_ws w = Some w' /\
      length w' = 2 ^ n /\
      (forall i, i < 2 ^ n -> Scalars_at w' i = challenge_product ws inv_ws n i).
Proof.
  intros Hsize. induction m as [|m IH]; intros j w Hj Hsum Hlen Hinv.
  - assert (E : j = n) by lia. subst j. simpl. exists w. auto.
  - cbn [seq w_cache_outer]. cbv zeta.
    assert (Hpow : 2 ^ (j + 1) = 2 * 2 ^ j)
      by (rewrite Nat.add_1_r; apply Nat.pow_succ_r').
    assert (Hle : 2 ^ (j + 1) <= 2 ^ n) by (apply Nat.pow_le_mono_r; lia).
    rewrite Hpow.
    destruct (@w_cache_inner_pairs ws inv_ws j (2 ^ j) (S (2 * 2 ^ j)) w)
      as (w1 & Hrun & Hlen1 & Hlow & _); [lia | lia | lia |].
    rewrite Hrun.
    apply (IH (S j) w1); [lia | lia | congruence |].
    intros i Hi. rewrite Nat.pow_succ_r' in Hi.
    rewrite (Hlow i Hi), challenge_product_step by exact Hj.
    f_equal. apply Hinv. now apply half_bound.
Qed.

Lemma build_w_cache_correct (num_rounds : nat) (ws inv_ws : list Scalar) :
  1 <= num_rounds -> (N.of_nat (2 ^ num_rounds) < 2 ^ 64)%N ->
  exists w_cache,
    build_w_cache num_rounds ws inv_ws = Some w_cache /\
    length w_cache = 2 ^ num_rounds /\
    (forall i, i < 2 ^ num_rounds ->
               Scalars_at w_cache i = challenge_product ws inv_ws num_rounds i).
Proof.
  intros Hn Hsize. unfold build_w_cache. cbv zeta.
  assert (Htwo : 2 <= 2 ^ num_rounds).
  { change 2 with (2 ^ 1) at 1. apply Nat.pow_le_mono_r; lia. }
  set (w0 := repeat (Scalar_of_Z 1) (2 ^ num_rounds)).
  assert (Hlen0 : length w0 = 2 ^ num_rounds) by apply repeat_length.
  apply (@w_cache_outer_rounds ws inv_ws num_rounds Hsize (num_rounds - 1) 1);
    [lia | lia | now rewrite !write_at_length |].
  intros i Hi. change (2 ^ 1) with 2 in Hi.
  assert (Hcase : i = 0 \/ i = 1) by lia.
  destruct Hcase as [-> | ->].
  - change (challenge_product ws inv_ws 1 0) with (Scalars_at inv_ws 0).
    rewrite write_at_other by lia. apply write_at_same. lia.
  - change (challenge_product ws inv_ws 1 1) with (Scalars_at ws 0).
    apply write_at_same. rewrite write_at_length. lia.
Qed.

Lemma pow2_rounds_fit (num_rounds : nat) :
  num_rounds <= 30 -> (N.of_nat (2 ^ num_rounds) < 2 ^ 64)%N.
Proof.
  intros H. rewrite Nat2N.inj_pow. change (N.of_nat 2) with 2%N.
  apply N.pow_lt_mono_r; lia.
Qed.

(** X15.  For 1 to 30 rounds the two loops that fill [w_cache] end, leave
    its size at [2^num_rounds] and overwrite every entry: entry [i] is the
    product, over the rounds in their order, of [ws[j]] or [inv_ws[j]],
    chosen by the bits of [i] from the highest for round 0 down to the lowest
    for the last round, a set bit choosing [ws[j]]. *)
Theorem build_w_cache_products (num_rounds : nat) (ws inv_ws : list Scalar) :
  1 <= num_rounds <= 30 ->
  exists w_cache,
    build_w_cache num_rounds ws inv_ws = Some w_cache /\
    length w_cache = 2 ^ num_rounds /\
    (forall i, i < 2 ^ num_rounds ->
               nth i w_cache Scalar_default =
               challenge_product ws inv_ws num_rounds i).
Proof.
  intros [H1 H30].
  exact (build_w_cache_correct ws inv_ws H1 (pow2_rounds_fit H30)).
Qed.

(** ** The complemented index *)

Lemma complement_index_pow2 (k : nat) (i : Z) :
  k <= 64 -> (0 <= i < 2 ^ Z.of_nat k)%Z ->
  complement_index i (2 ^ Z.of_nat k) = (2 ^ Z.of_nat k - 1 - i)%Z.
Proof.
  intros Hk Hi. unfold complement_index.
  assert (Hpos : (0 < 2 ^ Z.of_nat k)%Z) by (apply Z.pow_pos_nonneg; lia).
  assert (Hle : (2 ^ Z.of_nat k <= 2 ^ 64)%Z) by (apply Z.pow_le_mono_r; lia).
  rewrite (Z.mod_small (2 ^ Z.of_nat k - 1)) by lia.
  replace (2 ^ Z.of_nat k - 1)%Z with (Z.ones (Z.of_nat k))
    by (rewrite Z.ones_equiv; lia).
  rewrite Z.land_ones by lia.
  unfold Z.lnot. 
  assert (H64 : (2 ^ 64 = 2 ^ Z.of_nat k * 2 ^ (64 - Z.of_nat k))%Z).
  { rewrite <- Z.pow_add_r by lia. f_equal. lia. }
  assert (E : ((Z.pred (- i)) mod 2 ^ 64 = 2 ^ 64 - 1 - i)%Z).
  { symmetry. apply (Z.mod_unique _ _ (-1)); lia. }
  rewrite E, H64.
  pose proof (Z.ones_equiv (Z.of_nat k)) as Hones.
  symmetry. apply (Z.mod_unique _ _ (2 ^ (64 - Z.of_nat k) - 1)); [lia|].
  rewrite Hones. unfold Z.pred. ring.
Qed.

(** X16.  For [MN] a power of two up to [2^64] and [i < MN], the index
    [(~i) & (MN-1)] is [MN - 1 - i]: it stays inside the vector, and applying
    it twice gives [i] back. *)
Theorem complement_index_mirrors (k : nat) (i : Z) :
  k <= 64 -> (0 <= i < 2 ^ Z.of_nat k)%Z ->
  let MN := (2 ^ Z.of_nat k)%Z in
  complement_index i MN = (MN - 1 - i)%Z /\
  (0 <= complement_index i MN < MN)%Z /\
  complement_index (complement_index i MN) MN = i.
Proof.
  intros Hk Hi MN. subst MN.
  rewrite (complement_index_pow2 Hk Hi).
  split; [reflexivity|]. split; [lia|].
  rewrite complement_index_pow2 by (auto; lia). lia.
Qed.

Lemma challenge_product_mirror (ws inv_ws : list Scalar) (n : nat) :
  forall i, i < 2 ^ n ->
            challenge_product ws inv_ws n (2 ^ n - 1 - i) =
            challenge_product inv_ws ws n i.
Proof.
  induction n as [|r IH]; intros i Hi; [reflexivity|].
  assert (Hpow : 2 ^ S r = 2 * 2 ^ r) by apply Nat.pow_succ_r'.
  assert (Hodd : Nat.odd (2 ^ S r - 1 - i) = negb (Nat.odd i)).
  { replace (2 ^ S r - 1 - i) with (2 ^ S r - 1 - i + 2 * i - 2 * i) by lia.
    replace (2 ^ S r - 1 - i + 2 * i - 2 * i) with (2 * (2 ^ r - 1) + 1 - i) by lia.
    rewrite Nat.odd_sub by lia.
    rewrite Nat.add_comm, Nat.odd_add_mul_2. simpl.
    destruct (Nat.odd i); reflexivity. }
  assert (Hhalf : (2 ^ S r - 1 - i) / 2 = 2 ^ r - 1 - i / 2).
  { pose proof (Nat.div_mod_eq i 2) as Hdm.
    pose proof (Nat.mod_upper_bound i 2 ltac:(lia)) as Hm.
    symmetry. apply (Nat.div_unique _ 2 _ (1 - i mod 2)); lia. }
  cbn [challenge_product]. cbv zeta. rewrite Hodd, Hhalf.
  destruct r as [|r'].
  - destruct (Nat.odd i); reflexivity.
  - rewrite IH by (apply half_bound; lia).
    destruct (Nat.odd i); reflexivity.
Qed.

(** X17.  With [MN = 2^num_rounds], what [VerifyLoop2] multiplies
    [g_scalar] with at position [i] is the challenge product of [i], and what
    it multiplies [h_scalar] with, [w_cache[(~i) & (MN-1)]], is the product
    of the same rounds with [ws] and [inv_ws] exchanged. *)
Theorem w_cache_at_complement_index
        (num_rounds : nat) (ws inv_ws : list Scalar) (i : nat) :
  1 <= num_rounds <= 30 ->
  i < 2 ^ num_rounds ->
  let MN := Z.of_nat (2 ^ num_rounds) in
  exists w_cache,
    build_w_cache num_rounds ws inv_ws = Some w_cache /\
    nth i w_cache Scalar_default = challenge_product ws inv_ws num_rounds i /\
    nth (Z.to_nat (complement_index (Z.of_nat i) MN)) w_cache Scalar_default =
    challenge_product inv_ws ws num_rounds i.
Proof.
  intros [H1 H30] Hi MN.
  destruct (build_w_cache_correct ws inv_ws H1 (pow2_rounds_fit H30))
    as (w & Hrun & Hlen & Hw).
  exists w. split; [exact Hrun|]. split; [exact (Hw i Hi)|].
  assert (EMN : MN = (2 ^ Z.of_nat num_rounds)%Z).
  { subst MN. rewrite Nat2Z.inj_pow. reflexivity. }
  rewrite EMN, complement_index_pow2 by (try lia; rewrite <- EMN; subst MN; lia).
  rewrite <- EMN. subst MN.
  replace (Z.to_nat (Z.of_nat (2 ^ num_rounds) - 1 - Z.of_nat i))
    with (2 ^ num_rounds - 1 - i) by lia.
  change (nth (2 ^ num_rounds - 1 - i) w Scalar_default)
    with (Scalars_at w (2 ^ num_rounds - 1 - i)).
  rewrite Hw by lia. now apply challenge_product_mirror.
Qed.

End FurtherFacts.

(** * These parts on the concrete collaborators *)

(** X5 on an input that is recovered: other round points, the same entry. *)
Lemma RecoverTxIns_ignores_round_points_witness :
  RecoverTxIns (L := toy mixing_hash)
               [with_other_rounds (L := toy mixing_hash) toy_recoverable_tx_in
                                  [5%Z] [6%Z] []] 0 =
  RecoverTxIns (L := toy mixing_hash) [toy_recoverable_tx_in] 0 /\
  length (RecoverTxIns (L := toy mixing_hash) [toy_recoverable_tx_in] 0) = 1.
Proof.
  split.
  - apply (@RecoverTxIns_ignores_round_points (toy mixing_hash)
             toy_recoverable_tx_in [5%Z] [6%Z] [] 0).
    + discriminate.
    + reflexivity.
    + reflexivity.
  - vm_compute. reflexivity.
Defined.

(** X7 on the run of the concrete collaborators that returns at once:
    6 rounds for one value of 64 bits. *)
Lemma Prove_returned_rounds_witness :
  length (p_Ls honest_proof) = length (p_Rs honest_proof) /\
  length (p_Ls honest_proof) = 6 /\
  GetInnerProdArgRounds (L := toy mixing_hash) 1 = 6.
Proof.
  destruct (@Prove_returned_rounds (toy mixing_hash) [100%Z] toy_nonce
              hello_world 0 honest_proof honest_state honest_run_eq)
    as (HLR & _ & _ & Hrounds).
  split; [exact HLR|].
  assert (E : GetInnerProdArgRounds (L := toy mixing_hash) 1 = 6) by reflexivity.
  split; [|exact E].
  rewrite <- E. apply Hrounds; [reflexivity | vm_compute; lia].
Defined.

(** X8 on the same run. *)
Lemma Prove_returns_fixed_commitments_witness :
  proof honest_state = honest_proof /\
  p_Vs honest_proof =
  G1Points_add (Arith := toy mixing_hash)
    (G1Point_mul_vec (Arith := toy mixing_hash) (g_H (toy_generators 0))
       [GetHashWithSalt (Arith := toy mixing_hash) toy_nonce 100])
    (G1Point_mul_vec (Arith := toy mixing_hash) (g_G (toy_generators 0))
       [100%Z]).
Proof.
  destruct (@Prove_returns_fixed_commitments (toy mixing_hash) [100%Z] toy_nonce
              hello_world 0 honest_proof honest_state honest_run_eq)
    as (_ & _ & _ & Hp & HV).
  split; [exact Hp | exact HV].
Defined.

(** X9 on the same arguments. *)
Lemma Prove_transcript_only_grows_witness :
  exists ext,
    transcript (snd (Prove_trace (L := toy mixing_hash) [100%Z] toy_nonce
                                 hello_world 0)) =
    transcript (first_state (L := toy mixing_hash) [100%Z] toy_nonce 0) ++ ext.
Proof.
  destruct (@Prove_transcript_only_grows (toy mixing_hash) [100%Z] toy_nonce
              hello_world 0) as (ext & E & _).
  - vm_compute. lia.
  - vm_compute. lia.
  - exists ext. exact E.
Defined.

(** X10 on the same run. *)
Lemma Prove_first_attempt_transcript_witness :
  p_t honest_proof = Scalar_default (Arith := toy mixing_hash) /\
  exists y z x,
    transcript honest_state =
    [WritePoint (G1Points_at (L := toy mixing_hash) (p_Vs honest_proof) 0)]
    ++ attempt_log (L := toy mixing_hash) honest_proof y z x (p_t honest_proof).
Proof.
  destruct (@Prove_first_attempt_transcript (toy mixing_hash) [100%Z] toy_nonce
              hello_world 0 honest_proof honest_state honest_run_eq eq_refl)
    as (Ht & y & z & x & Htr & _).
  split; [exact Ht|]. exists y, z, x. exact Htr.
Defined.

(** X12 on the values 1, 2, 3 and 4: the block of the value 2. *)
Lemma flatten_aL_layout_witness :
  length (flatten_aL (L := toy mixing_hash) [1%Z; 2%Z; 3%Z; 4%Z]) = 4 * 64 /\
  firstn 64 (skipn (1 * 64) (flatten_aL (L := toy mixing_hash)
                                        [1%Z; 2%Z; 3%Z; 4%Z])) =
  [1%Z; 0%Z] ++ repeat 0%Z 62.
Proof.
  destruct (@flatten_aL_layout (toy mixing_hash) [1%Z; 2%Z; 3%Z; 4%Z])
    as (Hlen & _ & Hblock).
  - reflexivity.
  - repeat constructor.
  - split; [exact Hlen|]. exact (Hblock 1 ltac:(simpl; lia)).
Defined.

(** X14 on a batch of two proofs of 12 rounds. *)
Lemma VerifyLoop1_of_validated_batch_witness :
  let res := VerifyLoop1 (L := toy mixing_hash) toy_Build 0 0%N toy_batch 12 in
  proof_derivs res = [24; 24] /\ max_num_rounds res = 12 /\
  (2 <= Vs_size_sum res <= 32)%N.
Proof.
  destruct (@VerifyLoop1_of_validated_batch (toy mixing_hash) nat toy_Build 0 0%N
              toy_batch 12) as (Hd & Hmax & Hsum).
  - reflexivity.
  - cbv zeta. split; [exact Hd|]. split; [exact Hmax|].
    apply Hsum. vm_compute. reflexivity.
Defined.

(** X15 for three rounds. *)
Lemma build_w_cache_products_witness :
  exists w_cache,
    build_w_cache (L := toy mixing_hash) 3 toy_ws toy_inv_ws = Some w_cache /\
    length w_cache = 8 /\
    nth 5 w_cache 0%Z =
    challenge_product (L := toy mixing_hash) toy_ws toy_inv_ws 3 5.
Proof.
  destruct (@build_w_cache_products (toy mixing_hash) 3 toy_ws toy_inv_ws)
    as (w & Hrun & Hlen & Hw).
  - lia.
  - exists w. split; [exact Hrun|]. split; [exact Hlen|].
    apply (Hw 5). simpl. lia.
Defined.

(** X16 for [MN = 4096] and [i = 5]. *)
Lemma complement_index_mirrors_witness :
  complement_index 5 4096 = 4090%Z /\
  complement_index (complement_index 5 4096) 4096 = 5%Z.
Proof.
  destruct (@complement_index_mirrors 12 5%Z) as (H1 & _ & H2).
  - lia.
  - vm_compute. split; [discriminate | reflexivity].
  - split; [exact H1 | exact H2].
Defined.

(** X17 for three rounds and [i = 5]. *)
Lemma w_cache_at_complement_index_witness :
  exists w_cache,
    build_w_cache (L := toy mixing_hash) 3 toy_ws toy_inv_ws = Some w_cache /\
    nth 5 w_cache 0%Z =
    challenge_product (L := toy mixing_hash) toy_ws toy_inv_ws 3 5 /\
    nth (Z.to_nat (complement_index 5 8)) w_cache 0%Z =
    challenge_product (L := toy mixing_hash) toy_inv_ws toy_ws 3 5.
Proof.
  destruct (@w_cache_at_complement_index (toy mixing_hash) 3 toy_ws toy_inv_ws 5)
    as (w & Hrun & H1 & H2).
  - lia.
  - simpl. lia.
  - exists w. split; [exact Hrun|]. split; [exact H1 | exact H2].
Defined.
